(** * pymarket: the two simulation engines of [pymarket/algorithms.py]

    A shallow embedding of [alg_01] (rebalancing between stock and bonds on
    drawdowns) and [alg_02] (buying on margin on drawdowns), followed by the
    properties of the specification stated over that embedding.

    Numbers.  The Python code computes with binary64 floats.  A float is
    modelled here by the rational it stands for ([Q]).  Where the code
    compares the result of float operations with another value, the model
    computes that result as the code does, rounding every operation to
    binary64 ([round64]): the drawdown of either engine and the division of
    the percentages by 100 in [alg_01].  The valuations, which no branch of
    the code depends on, are computed exactly; they differ from the values of
    the code by the rounding of the products and sums.  Infinities and NaN
    are outside the model, and so is a division whose divisor is zero (numpy
    returns inf/nan there, [Q] returns 0); statements that depend on the
    value of a quotient assume the divisor is not zero.

    Series.  A pandas Series is modelled by the list of its values in
    positional order (position 0 is the most recent price), and both
    [series[i]] and [series.iloc[i]] by positional lookup, which is what they
    are for the series built by [api.Connection.get_series].

    Exceptions.  A Python exception ends the call; it is a value of [exn]
    carried by [result]. *)

From Stdlib Require Import ZArith QArith Qround Qpower Qfield Lqa Lia List Bool
  Arith.
From Stdlib Require Floats.
Import ListNotations.

Open Scope Q_scope.

(** ** Exceptions and the error monad *)

Inductive exn : Set :=
| AssertionError      (* a failed [assert] *)
| IndexError          (* [l[0]] on an empty Python list *)
| LookupError         (* a series lookup outside the series *)
| ZeroDivisionError.  (* [/] on Python floats with a zero divisor *)

Inductive result (A : Type) : Type :=
| Ok (a : A)
| Raise (e : exn).

Arguments Ok {A} a.
Arguments Raise {A} e.

Definition bind {A B : Type} (c : result A) (k : A -> result B) : result B :=
  match c with
  | Ok a => k a
  | Raise e => Raise e
  end.

Notation "x <- c ;; k" := (bind c (fun x => k))
  (at level 61, c at next level, right associativity).
Notation "c ;;; k" := (bind c (fun _ => k))
  (at level 61, right associativity).

(** ** Python primitives used by both engines *)

(** [x < y] on numbers, as a boolean. *)
Definition Qltb (x y : Q) : bool := negb (Qle_bool y x).

(** [assert b] *)
Definition py_assert (b : bool) : result unit :=
  if b then Ok tt else Raise AssertionError.

(** [0 < x and x < 100] *)
Definition valid_perc (x : Q) : bool := Qltb 0 x && Qltb x 100.

(** [all([0 < x and x < 100 for x in l])] *)
Definition all_valid (l : list Q) : bool := forallb valid_perc l.

(** [series[i]], [series.iloc[i]] *)
Definition iloc (series : list Q) (i : nat) : result Q :=
  match nth_error series i with
  | Some x => Ok x
  | None => Raise LookupError
  end.

(** [series[s-1]] where [s = series.size]: for [s = 0] the key is [-1]. *)
Definition oldest (series : list Q) : result Q :=
  match length series with
  | O => Raise LookupError
  | S i => iloc series i
  end.

(** ** Binary64 rounding

    The values the code compares with a trigger are binary64 values: the
    result of a float operation is the exact result rounded to the nearest
    binary64 value, ties to the one with an even significand.  [round64 q] is
    that rounding of the rational [q]: a positive [q] with
    [2^e <= q < 2^(e+1)] is rounded to the nearest multiple of [2^(e-52)], or
    of [2^-1074] in the subnormal range.  The result is always a finite
    number: a result beyond the largest binary64 value, which the code turns
    into an infinity, is outside the model. *)

Definition pow2 (z : Z) : Q := 2 ^ z.

(** The integer [e] with [2^e <= q < 2^(e+1)], for a positive [q]. *)
Definition Qlog2 (q : Q) : Z :=
  let e := (Z.log2 (Qnum q) - Z.log2 (Zpos (Qden q)))%Z in
  if Qle_bool (pow2 e) q then e else (e - 1)%Z.

(** The nearest integer, ties to the even one. *)
Definition rne (m : Q) : Z :=
  let f := Qfloor m in
  match Qcompare (m - inject_Z f)%Q (1 # 2)%Q with
  | Lt => f
  | Gt => (f + 1)%Z
  | Eq => if Z.even f then f else (f + 1)%Z
  end.

(** The exponent of the unit in the last place of a positive [q]. *)
Definition ulp_exp (q : Q) : Z := Z.max (Qlog2 q - 52) (-1074).

Definition round64_pos (q : Q) : Q :=
  inject_Z (rne (q / pow2 (ulp_exp q))) * pow2 (ulp_exp q).

Definition round64 (q : Q) : Q :=
  match Qcompare q 0 with
  | Eq => 0
  | Gt => round64_pos q
  | Lt => - round64_pos (- q)
  end.

(** The rationals that are binary64 values. *)
Definition binary64 (q : Q) : Prop := round64 q == q.

(** The rational a finite float of the kernel stands for: [round64] is
    compared with the kernel's binary64 operations further down. *)
Definition F2Q (f : PrimFloat.float) : Q :=
  match FloatOps.Prim2SF f with
  | SpecFloat.S754_finite s m e =>
      (if s then - inject_Z (Z.pos m) else inject_Z (Z.pos m)) * pow2 e
  | _ => 0
  end.

(** [if price > max: max = price] (lines 87-88 and 194-195): the new value
    of [max]. *)
Definition new_max (max price : Q) : Q :=
  if Qltb max price then price else max.

(** [for i in range(n-1, -1, -1): st = body(i, st)] *)
Fixpoint for_range {St : Type} (body : nat -> St -> result St)
  (n : nat) (st : St) : result St :=
  match n with
  | O => Ok st
  | S i => st' <- body i st ;; for_range body i st'
  end.

(** The states held at the end of each completed iteration of the same loop,
    in the order they are reached; an iteration that raises ends the list. *)
Fixpoint trace {St : Type} (body : nat -> St -> result St)
  (n : nat) (st : St) : list St :=
  match n with
  | O => []
  | S i =>
      match body i st with
      | Ok st' => st' :: trace body i st'
      | Raise _ => []
      end
  end.

(** ** The Rebalance Engine, [alg_01] *)

Module Alg01.

(** The local variables of [alg_01] that the loop reads and writes. *)
Record state : Type := mkState {
  stock_val : Q;
  bond_val : Q;
  decr_perc : list Q;
  sell_perc : list Q;
  max : Q;
  min : Q;
  current_decrease : Q
}.

(** Lines 96-101:
      while current_decrease > decr_perc[0]:
          sell_value = bond_val * sell_perc[0]
          bond_val = bond_val - sell_value
          stock_val = stock_val + sell_value
          decr_perc.pop(0)
          sell_perc.pop(0)
    Every iteration pops [decr_perc], so the loop is structural on it.  The
    condition reads [decr_perc[0]] before each iteration, also when the list
    has just been emptied. *)
Fixpoint while_decrease (current_decrease : Q) (decr_perc sell_perc : list Q)
  (stock_val bond_val : Q) : result (list Q * list Q * Q * Q) :=
  match decr_perc with
  | [] => Raise IndexError
  | d :: decr_perc' =>
      if Qltb d current_decrease then
        match sell_perc with
        | [] => Raise IndexError
        | p :: sell_perc' =>
            let sell_value := bond_val * p in
            let bond_val := bond_val - sell_value in
            let stock_val := stock_val + sell_value in
            while_decrease current_decrease decr_perc' sell_perc'
              stock_val bond_val
        end
      else Ok (decr_perc, sell_perc, stock_val, bond_val)
  end.

(** Line 95: [current_decrease = 1 - min/max], a float division and a float
    subtraction. *)
Definition drawdown (min max : Q) : Q := round64 (1 - round64 (min / max)).

(** Lines 78-85: the valuations after the price-ratio update and the monthly
    addition of iteration [i]. *)
Definition revalue (stock_series bond_series : list Q) (monthly_addn : Q)
  (i : nat) (stock_val bond_val : Q) : result (Q * Q) :=
  si <- iloc stock_series i ;;
  si1 <- iloc stock_series (i + 1) ;;
  let stock_change := si / si1 in
  let stock_val := stock_val * stock_change in
  bi <- iloc bond_series i ;;
  bi1 <- iloc bond_series (i + 1) ;;
  let bond_change := bi / bi1 in
  let bond_val := bond_val * bond_change in
  let bond_val :=
    if (i mod 25 =? 0)%nat then bond_val + monthly_addn else bond_val in
  Ok (stock_val, bond_val).

(** Lines 78-101: one iteration of the [for] loop, at index [i]. *)
Definition body (stock_series bond_series : list Q) (monthly_addn : Q)
  (i : nat) (st : state) : result state :=
  v <- revalue stock_series bond_series monthly_addn i
         (stock_val st) (bond_val st) ;;
  let '(stock_val, bond_val) := v in
  si <- iloc stock_series i ;;
  let max := new_max (max st) si in
  if Qltb si (min st) then
    let min := si in
    let current_decrease := drawdown min max in
    r <- while_decrease current_decrease (decr_perc st) (sell_perc st)
           stock_val bond_val ;;
    let '(decr_perc, sell_perc, stock_val, bond_val) := r in
    Ok (mkState stock_val bond_val decr_perc sell_perc max min
          current_decrease)
  else
    Ok (mkState stock_val bond_val (decr_perc st) (sell_perc st) max (min st)
          (current_decrease st)).

(** Lines 52-73: the assertions, the conversion of the percentages (a float
    division each) and the initial values of the locals. *)
Definition init (stock_series bond_series : list Q) (stock_val bond_val : Q)
  (decr_perc sell_perc : list Q) : result state :=
  py_assert (all_valid decr_perc) ;;;
  py_assert (all_valid sell_perc) ;;;
  py_assert (length decr_perc =? length sell_perc)%nat ;;;
  py_assert (length stock_series =? length bond_series)%nat ;;;
  let decr_perc := map (fun x => round64 (x / 100)) decr_perc in
  let sell_perc := map (fun x => round64 (x / 100)) sell_perc in
  max <- oldest stock_series ;;
  min <- oldest stock_series ;;
  let current_decrease := 0 in
  Ok (mkState stock_val bond_val decr_perc sell_perc max min current_decrease).

(** Lines 52-101: the locals when the [for] loop has ended. *)
Definition run (stock_series bond_series : list Q) (stock_val bond_val : Q)
  (decr_perc sell_perc : list Q) (monthly_addn : Q) : result state :=
  st <- init stock_series bond_series stock_val bond_val decr_perc sell_perc ;;
  for_range (body stock_series bond_series monthly_addn)
    (length stock_series - 1) st.

(** The locals after each completed iteration, the initial ones first. *)
Definition states (stock_series bond_series : list Q) (stock_val bond_val : Q)
  (decr_perc sell_perc : list Q) (monthly_addn : Q) : list state :=
  match init stock_series bond_series stock_val bond_val decr_perc sell_perc
  with
  | Ok st =>
      st :: trace (body stock_series bond_series monthly_addn)
              (length stock_series - 1) st
  | Raise _ => []
  end.

(** Lines 103-104.  When the loop ran, the valuations are numpy floats and
    the division never raises; when it did not (a series of one price) they
    are the Python floats of the call, and a zero divisor raises. *)
Definition port_change (s : nat) (init_port_val : Q) (st : state)
  : result Q :=
  let fin_port_val := stock_val st + bond_val st in
  if (s - 1 =? 0)%nat && Qeq_bool init_port_val 0
  then Raise ZeroDivisionError
  else Ok (fin_port_val / init_port_val - 1).

(** [alg_01(stock_series, bond_series, stock_val, bond_val, decr_perc,
            sell_perc, monthly_addn)] *)
Definition alg_01 (stock_series bond_series : list Q) (stock_val bond_val : Q)
  (decr_perc sell_perc : list Q) (monthly_addn : Q) : result Q :=
  st <- run stock_series bond_series stock_val bond_val decr_perc sell_perc
          monthly_addn ;;
  port_change (length stock_series) (stock_val + bond_val) st.

End Alg01.

(** ** The Margin Engine, [alg_02] *)

Module Alg02.

(** The local variables of [alg_02] that the loop reads and writes.
    [decrease_buys] is read but never written, and the copy of
    [increase_percentages] is never read: neither is part of the state. *)
Record state : Type := mkState {
  margin : Q;
  m_stock_val : Q;
  decrease_percentages : list Q;
  max : Q;
  min : Q;
  current_decrease : Q;
  current_increase : Q
}.

(** Lines 203-206:
      while current_decrease > decrease_percentages[0]:
          m_stock_val = m_stock_val + decrease_buys[0] * margin / 100.0
          margin = margin - m_stock_val
          decrease_percentages.pop(0)
    Only [decrease_percentages] is popped. *)
Fixpoint while_decrease (current_decrease : Q)
  (decrease_percentages decrease_buys : list Q) (m_stock_val margin : Q)
  : result (list Q * Q * Q) :=
  match decrease_percentages with
  | [] => Raise IndexError
  | d :: decrease_percentages' =>
      if Qltb d current_decrease then
        match decrease_buys with
        | [] => Raise IndexError
        | b :: _ =>
            let m_stock_val := m_stock_val + b * margin / 100 in
            let margin := margin - m_stock_val in
            while_decrease current_decrease decrease_percentages'
              decrease_buys m_stock_val margin
        end
      else Ok (decrease_percentages, m_stock_val, margin)
  end.

(** Line 202: [current_decrease = (max - min) / max], a float subtraction
    and a float division. *)
Definition drawdown (min max : Q) : Q := round64 (round64 (max - min) / max).

(** Lines 194-206: one iteration of the [for] loop, at index [i]. *)
Definition body (series : list Q) (decrease_buys : list Q)
  (i : nat) (st : state) : result state :=
  si <- iloc series i ;;
  let max := new_max (max st) si in
  if Qltb si (min st) then
    let min := si in
    let current_decrease := drawdown min max in
    r <- while_decrease current_decrease (decrease_percentages st)
           decrease_buys (m_stock_val st) (margin st) ;;
    let '(decrease_percentages, m_stock_val, margin) := r in
    Ok (mkState margin m_stock_val decrease_percentages max min
          current_decrease (current_increase st))
  else
    Ok (mkState (margin st) (m_stock_val st) (decrease_percentages st) max
          (min st) (current_decrease st) (current_increase st)).

(** Lines 173-190: the assertions, the copies and the initial values of the
    locals.  The percentages are used as given: they are not divided by 100. *)
Definition init (series : list Q) (margin_rate margin : Q)
  (decrease_percentages decrease_buys increase_percentages
     increase_sells : list Q) : result state :=
  py_assert (all_valid decrease_percentages) ;;;
  py_assert (all_valid decrease_buys) ;;;
  py_assert (all_valid increase_percentages) ;;;
  py_assert (all_valid increase_sells) ;;;
  max <- oldest series ;;
  min <- oldest series ;;
  let current_decrease := 0 in
  let current_increase := 0 in
  let m_stock_val := 0 in
  Ok (mkState margin m_stock_val decrease_percentages max min
        current_decrease current_increase).

(** Lines 173-206: the locals when the [for] loop has ended. *)
Definition run (series : list Q) (margin_rate margin : Q)
  (decrease_percentages decrease_buys increase_percentages
     increase_sells : list Q) : result state :=
  st <- init series margin_rate margin decrease_percentages decrease_buys
          increase_percentages increase_sells ;;
  for_range (body series decrease_buys) (length series - 1) st.

(** The locals after each completed iteration, the initial ones first. *)
Definition states (series : list Q) (margin_rate margin : Q)
  (decrease_percentages decrease_buys increase_percentages
     increase_sells : list Q) : list state :=
  match init series margin_rate margin decrease_percentages decrease_buys
          increase_percentages increase_sells
  with
  | Ok st => st :: trace (body series decrease_buys) (length series - 1) st
  | Raise _ => []
  end.

(** [alg_02(series, margin_rate, margin, decrease_percentages, decrease_buys,
            increase_percentages, increase_sells)]: the function has no
    [return] statement, so a call that does not raise returns [None]. *)
Definition alg_02 (series : list Q) (margin_rate margin : Q)
  (decrease_percentages decrease_buys increase_percentages
     increase_sells : list Q) : result unit :=
  run series margin_rate margin decrease_percentages decrease_buys
    increase_percentages increase_sells ;;;
  Ok tt.

End Alg02.

(** ** Statements about the running extrema

    The two engines track the extrema with the same code; the predicates
    below state, for the list of states a call goes through and the fields
    that hold the extrema, what is proved of both further down. *)

Section Extrema.

Context {St : Type}.
Variables max min current_decrease : St -> Q.
Variable drawdown : Q -> Q -> Q.

(** Both extrema start at the oldest price; the minimum never exceeds the
    maximum; from one state to the next the maximum does not decrease and
    the minimum does not increase. *)
Definition tracks_extrema (series : list Q) (states : list St) : Prop :=
  (forall st, nth_error states 0 = Some st ->
     max st = min st /\ oldest series = Ok (max st)) /\
  (forall st, In st states -> min st <= max st) /\
  (forall k st st',
     nth_error states k = Some st -> nth_error states (S k) = Some st' ->
     max st <= max st' /\ min st' <= min st).

(** The drawdown held in every state lies between 0 and 1, both included,
    and the maximum it was divided by is positive; and so is the drawdown
    that an iteration starting in any of these states computes on a new
    minimum [price], whether the iteration then completes or raises. *)
Definition drawdowns_in_range (series : list Q) (states : list St) : Prop :=
  (forall st, In st states ->
     0 < max st /\ 0 <= current_decrease st /\ current_decrease st <= 1) /\
  (forall st i price,
     In st states -> iloc series i = Ok price -> price < min st ->
     0 < new_max (max st) price /\
     0 <= drawdown price (new_max (max st) price) /\
     drawdown price (new_max (max st) price) <= 1).

End Extrema.

(** ** The valuations when the ladder never fires

    [bond_hold bond_series monthly_addn n bond_val] is the bond valuation
    after the iterations [n-1], ..., [0] of lines 80-85 alone,
    [stock_hold stock_series n stock_val] the stock valuation after the same
    iterations of lines 78-79 alone, and
    [additions bond_series monthly_addn n] what the monthly additions of these
    iterations are worth at the end: the one of iteration [i] has been
    multiplied by the bond price ratios of the iterations [i-1], ..., [0]. *)

Fixpoint bond_hold (bond_series : list Q) (monthly_addn : Q) (n : nat)
  (bond_val : Q) : Q :=
  match n with
  | O => bond_val
  | S i =>
      let bond_change := nth i bond_series 0 / nth (i + 1) bond_series 0 in
      let bond_val := bond_val * bond_change in
      bond_hold bond_series monthly_addn i
        (if (i mod 25 =? 0)%nat then bond_val + monthly_addn else bond_val)
  end.

Fixpoint stock_hold (stock_series : list Q) (n : nat) (stock_val : Q) : Q :=
  match n with
  | O => stock_val
  | S i =>
      let stock_change := nth i stock_series 0 / nth (i + 1) stock_series 0 in
      stock_hold stock_series i (stock_val * stock_change)
  end.

Fixpoint additions (bond_series : list Q) (monthly_addn : Q) (n : nat) : Q :=
  match n with
  | O => 0
  | S i =>
      additions bond_series monthly_addn i +
      (if (i mod 25 =? 0)%nat
       then monthly_addn * (nth 0 bond_series 0 / nth i bond_series 0)
       else 0)
  end.

(** ** What a run of firings leaves

    [sell_all ps stock_val bond_val] is the pair of valuations after lines
    97-99 have been run with the fractions [ps], one after the other, and
    [draw_all k b m_stock_val margin] the pair of margin-stock value and
    margin after lines 204-205 have been run [k] times with the fraction
    [b]. *)

Fixpoint sell_all (ps : list Q) (stock_val bond_val : Q) : Q * Q :=
  match ps with
  | [] => (stock_val, bond_val)
  | p :: ps' =>
      let sell_value := bond_val * p in
      let bond_val := bond_val - sell_value in
      let stock_val := stock_val + sell_value in
      sell_all ps' stock_val bond_val
  end.

Fixpoint draw_all (k : nat) (b : Q) (m_stock_val margin : Q) : Q * Q :=
  match k with
  | O => (m_stock_val, margin)
  | S k' =>
      let m_stock_val := m_stock_val + b * margin / 100 in
      let margin := margin - m_stock_val in
      draw_all k' b m_stock_val margin
  end.

(** The share of the bonds that is left when the fractions [ps] have been
    sold one after the other. *)
Fixpoint kept (ps : list Q) : Q :=
  match ps with
  | [] => 1
  | p :: ps' => (1 - p) * kept ps'
  end.

(** * Properties *)

(** ** Binary64 rounding is monotone *)

Lemma pow2_pos z : 0 < pow2 z.
Proof. unfold pow2. apply Qpower_0_lt. reflexivity. Qed.

Lemma pow2_add a b : pow2 (a + b) == pow2 a * pow2 b.
Proof. unfold pow2. apply Qpower_plus. discriminate. Qed.

Lemma pow2_le a b : (a <= b)%Z -> pow2 a <= pow2 b.
Proof. intro H. unfold pow2. apply Qpower_le_compat_l; [exact H | discriminate]. Qed.

Lemma pow2_inject n : (0 <= n)%Z -> pow2 n == inject_Z (2 ^ n).
Proof. intro H. unfold pow2. rewrite Zpower_Qpower by exact H. reflexivity. Qed.

Lemma Qlog2_spec q : 0 < q -> pow2 (Qlog2 q) <= q /\ q < pow2 (Qlog2 q + 1).
Proof.
  intro Hq. destruct q as [a b]. unfold Qlog2. cbn [Qnum Qden].
  assert (Ha : (0 < a)%Z) by (unfold Qlt in Hq; cbn in Hq; lia).
  set (la := Z.log2 a). set (lb := Z.log2 (Z.pos b)).
  assert (Hla : (0 <= la)%Z) by apply Z.log2_nonneg.
  assert (Hlb : (0 <= lb)%Z) by apply Z.log2_nonneg.
  destruct (Z.log2_spec a Ha) as [Ha1 Ha2]. fold la in Ha1, Ha2.
  destruct (Z.log2_spec (Z.pos b) ltac:(lia)) as [Hb1 Hb2]. fold lb in Hb1, Hb2.
  assert (HA1 : pow2 la <= inject_Z a).
  { rewrite pow2_inject by lia. rewrite <- Zle_Qle. exact Ha1. }
  assert (HA2 : inject_Z a < pow2 (la + 1)).
  { rewrite pow2_inject by lia. rewrite <- Zlt_Qlt. exact Ha2. }
  assert (HB1 : pow2 lb <= inject_Z (Z.pos b)).
  { rewrite pow2_inject by lia. rewrite <- Zle_Qle. exact Hb1. }
  assert (HB2 : inject_Z (Z.pos b) < pow2 (lb + 1)).
  { rewrite pow2_inject by lia. rewrite <- Zlt_Qlt. exact Hb2. }
  assert (HB0 : 0 < inject_Z (Z.pos b)) by reflexivity.
  assert (Hq' : a # b == inject_Z a / inject_Z (Z.pos b)) by apply Qmake_Qdiv.
  assert (HU : a # b < pow2 (la - lb + 1)).
  { rewrite Hq'. apply Qlt_shift_div_r; [exact HB0 |].
    eapply Qlt_le_trans; [exact HA2 |].
    replace (la + 1)%Z with ((la - lb + 1) + lb)%Z by lia.
    rewrite pow2_add. apply Qmult_le_l; [apply pow2_pos | exact HB1]. }
  assert (HL : pow2 (la - lb - 1) <= a # b).
  { rewrite Hq'. apply Qle_shift_div_l; [exact HB0 |].
    eapply Qle_trans; [| exact HA1].
    replace la with ((la - lb - 1) + (lb + 1))%Z at 2 by lia.
    rewrite pow2_add. apply Qmult_le_l; [apply pow2_pos |].
    apply Qlt_le_weak. exact HB2. }
  destruct (Qle_bool (pow2 (la - lb)) (a # b)) eqn:E.
  - apply Qle_bool_iff in E. split; [exact E | exact HU].
  - split; [exact HL |].
    replace (la - lb - 1 + 1)%Z with (la - lb)%Z by lia.
    apply Qnot_le_lt. intro H. apply Qle_bool_iff in H. congruence.
Qed.

Lemma Qlog2_mono x y : 0 < x -> x <= y -> (Qlog2 x <= Qlog2 y)%Z.
Proof.
  intros Hx Hxy.
  assert (Hy : 0 < y) by (eapply Qlt_le_trans; eauto).
  destruct (Qlog2_spec x Hx) as [Hx1 _].
  destruct (Qlog2_spec y Hy) as [_ Hy2].
  destruct (Z_le_gt_dec (Qlog2 x) (Qlog2 y)) as [H | H]; [exact H |].
  exfalso.
  assert (Hp : pow2 (Qlog2 y + 1) <= pow2 (Qlog2 x)) by (apply pow2_le; lia).
  lra.
Qed.

Lemma rne_bounds m : (Qfloor m <= rne m <= Qfloor m + 1)%Z.
Proof.
  unfold rne. destruct (Qcompare _ _); [destruct (Z.even _) | |]; lia.
Qed.

Lemma rne_inject n : rne (inject_Z n) = n.
Proof.
  unfold rne. rewrite Qfloor_Z.
  destruct (Qcompare_spec (inject_Z n - inject_Z n) (1 # 2)) as [H | H | H];
    [exfalso; lra | reflexivity | exfalso; lra].
Qed.

Lemma rne_mono x y : x <= y -> (rne x <= rne y)%Z.
Proof.
  intro Hxy. pose proof (Qfloor_resp_le x y Hxy) as Hf.
  destruct (Z.eq_dec (Qfloor x) (Qfloor y)) as [E | E].
  - unfold rne. rewrite <- E.
    destruct (Qcompare_spec (x - inject_Z (Qfloor x)) (1 # 2)) as [H1 | H1 | H1];
      destruct (Qcompare_spec (y - inject_Z (Qfloor x)) (1 # 2)) as [H2 | H2 | H2];
      try (destruct (Z.even (Qfloor x))); try lia; exfalso; lra.
  - pose proof (rne_bounds x). pose proof (rne_bounds y). lia.
Qed.

Lemma scaled_le x y u : x <= y -> x / pow2 u <= y / pow2 u.
Proof.
  intro H. pose proof (pow2_pos u) as Hp.
  apply Qle_shift_div_l; [exact Hp |].
  setoid_replace (x / pow2 u * pow2 u) with x by (field; lra). exact H.
Qed.

Lemma round64_pos_nonneg x : 0 < x -> 0 <= round64_pos x.
Proof.
  intro Hx. unfold round64_pos.
  apply Qmult_le_0_compat; [| apply Qlt_le_weak, pow2_pos].
  assert (H0 : 0 <= x / pow2 (ulp_exp x)).
  { apply Qle_shift_div_l; [apply pow2_pos | lra]. }
  pose proof (Qfloor_resp_le 0 _ H0) as Hf.
  pose proof (rne_bounds (x / pow2 (ulp_exp x))) as Hb.
  change (Qfloor 0) with 0%Z in Hf.
  change 0 with (inject_Z 0). rewrite <- Zle_Qle. lia.
Qed.

Lemma round64_pos_mono x y :
  0 < x -> x <= y -> round64_pos x <= round64_pos y.
Proof.
  intros Hx Hxy.
  assert (Hy : 0 < y) by (eapply Qlt_le_trans; eauto).
  pose proof (Qlog2_mono x y Hx Hxy) as He.
  destruct (Qlog2_spec x Hx) as [_ Hx2].
  destruct (Qlog2_spec y Hy) as [Hy1 _].
  unfold round64_pos, ulp_exp in *.
  set (ex := Qlog2 x) in *. set (ey := Qlog2 y) in *.
  set (ux := Z.max (ex - 52) (-1074)). set (uy := Z.max (ey - 52) (-1074)).
  destruct (Z.eq_dec ux uy) as [E | E].
  - rewrite <- E. apply Qmult_le_compat_r; [| apply Qlt_le_weak, pow2_pos].
    rewrite <- Zle_Qle. apply rne_mono. apply scaled_le. exact Hxy.
  - assert (Hu : (ux + 1 <= uy)%Z) by (unfold ux, uy in *; lia).
    assert (Huy : uy = (ey - 52)%Z) by (unfold ux, uy in *; lia).
    assert (Hux : (ex + 1 <= ux + 53)%Z) by (unfold ux; lia).
    pose proof (pow2_pos ux) as Hpx. pose proof (pow2_pos uy) as Hpy.
    apply Qle_trans with (pow2 (53 + ux)).
    + rewrite pow2_add, (pow2_inject 53) by lia.
      apply Qmult_le_compat_r; [| lra].
      rewrite <- Zle_Qle. rewrite <- (rne_inject (2 ^ 53)).
      apply rne_mono. apply Qle_shift_div_r; [exact Hpx |].
      rewrite <- (pow2_inject 53), <- pow2_add by lia.
      apply Qlt_le_weak. eapply Qlt_le_trans; [exact Hx2 |].
      apply pow2_le. lia.
    + apply Qle_trans with (pow2 (52 + uy)); [apply pow2_le; lia |].
      rewrite pow2_add, (pow2_inject 52) by lia.
      apply Qmult_le_compat_r; [| lra].
      rewrite <- Zle_Qle. rewrite <- (rne_inject (2 ^ 52)) at 1.
      apply rne_mono. apply Qle_shift_div_l; [exact Hpy |].
      rewrite <- (pow2_inject 52), <- pow2_add by lia.
      eapply Qle_trans; [| exact Hy1]. apply pow2_le. lia.
Qed.

Lemma round64_mono x y : x <= y -> round64 x <= round64 y.
Proof.
  intro Hxy. unfold round64.
  destruct (Qcompare_spec x 0) as [Hx | Hx | Hx];
    destruct (Qcompare_spec y 0) as [Hy | Hy | Hy];
    try (exfalso; lra).
  - apply Qle_refl.
  - apply round64_pos_nonneg. exact Hy.
  - pose proof (round64_pos_nonneg (- x) ltac:(lra)). lra.
  - assert (H : round64_pos (- y) <= round64_pos (- x))
      by (apply round64_pos_mono; lra).
    lra.
  - pose proof (round64_pos_nonneg (- x) ltac:(lra)).
    pose proof (round64_pos_nonneg y Hy). lra.
  - apply round64_pos_mono; assumption.
Qed.

Lemma round64_comp x y : x == y -> round64 x == round64 y.
Proof.
  intro H. apply Qle_antisym; apply round64_mono; rewrite H; apply Qle_refl.
Qed.

Lemma round64_0 : round64 0 == 0.
Proof. reflexivity. Qed.

Lemma round64_1 : round64 1 == 1.
Proof. vm_compute. reflexivity. Qed.

Lemma round64_nonneg x : 0 <= x -> 0 <= round64 x.
Proof.
  intro H. rewrite <- round64_0. apply round64_mono. exact H.
Qed.

Lemma round64_unit x : 0 <= x -> x <= 1 -> 0 <= round64 x /\ round64 x <= 1.
Proof.
  intros H0 H1. split; [apply round64_nonneg; exact H0 |].
  rewrite <- round64_1. apply round64_mono. exact H1.
Qed.

(** [round64] and the two drawdowns against the binary64 operations of the
    kernel: quotients that are not binary64 values, the two drawdowns of a
    fall from 100 to 95 (which differ), ties, a subnormal result and a
    result that underflows to zero. *)
Module Binary64Check.

Import Floats.

Lemma round64_division :
  F2Q (95 / 100)%float == round64 (95 / 100)%Q /\
  F2Q (5 / 100)%float == round64 (5 / 100)%Q /\
  F2Q (- (1 / 3))%float == round64 (- (1 # 3))%Q.
Proof. repeat split; vm_compute; reflexivity. Qed.

Lemma drawdown_100_95 :
  F2Q (1 - 95 / 100)%float == Alg01.drawdown 95 100 /\
  F2Q ((100 - 95) / 100)%float == Alg02.drawdown 95 100 /\
  (Alg02.drawdown 95 100 < Alg01.drawdown 95 100)%Q.
Proof. repeat split; vm_compute; reflexivity. Qed.

Lemma round64_ties :
  F2Q (1 + Z.ldexp 1 (-53))%float == round64 (1 + (1 # 2 ^ 53))%Q /\
  F2Q (1 + Z.ldexp 3 (-53))%float == round64 (1 + (3 # 2 ^ 53))%Q /\
  F2Q (1 - Z.ldexp 1 (-70))%float == round64 (1 - (1 # 2 ^ 70))%Q.
Proof. repeat split; vm_compute; reflexivity. Qed.

Lemma round64_subnormal :
  F2Q (Z.ldexp 1 (-1070) / 3)%float == round64 ((1 # 2 ^ 1070) / 3)%Q /\
  F2Q (Z.ldexp 3 (-1074) / 2)%float == round64 ((3 # 2 ^ 1074) / 2)%Q /\
  F2Q (Z.ldexp 1 (-1074) / 2)%float == round64 ((1 # 2 ^ 1074) / 2)%Q.
Proof. repeat split; vm_compute; reflexivity. Qed.

End Binary64Check.

(** ** Comparisons and the error monad *)

Lemma Qltb_lt (x y : Q) : Qltb x y = true <-> x < y.
Proof.
  unfold Qltb. rewrite negb_true_iff. split; intro H.
  - apply Qnot_le_lt. intro Hle. apply Qle_bool_iff in Hle. congruence.
  - destruct (Qle_bool y x) eqn:E; [| reflexivity].
    apply Qle_bool_iff in E. exfalso. apply (Qlt_not_le _ _ H E).
Qed.

Lemma Qltb_ge (x y : Q) : Qltb x y = false <-> y <= x.
Proof.
  unfold Qltb. rewrite negb_false_iff. apply Qle_bool_iff.
Qed.

Lemma valid_perc_spec (x : Q) : valid_perc x = true <-> 0 < x /\ x < 100.
Proof.
  unfold valid_perc. rewrite andb_true_iff, !Qltb_lt. reflexivity.
Qed.

Lemma all_valid_spec (l : list Q) :
  all_valid l = true <-> forall x, In x l -> 0 < x /\ x < 100.
Proof.
  unfold all_valid. rewrite forallb_forall.
  split; intros H x Hx; apply valid_perc_spec, H, Hx.
Qed.

Lemma bind_Ok_inv {A B : Type} (c : result A) (k : A -> result B) (b : B) :
  (x <- c ;; k x) = Ok b -> exists a, c = Ok a /\ k a = Ok b.
Proof.
  destruct c as [a | e]; simpl; intro H; [eauto | discriminate].
Qed.

Lemma last_cons {A : Type} (l : list A) :
  forall a d, last (a :: l) d = last l a.
Proof.
  induction l as [| b l IH]; intros a d; [reflexivity |].
  change (last (a :: b :: l) d) with (last (b :: l) d).
  rewrite (IH b d), (IH b a). reflexivity.
Qed.

(** The last of the states listed by [trace] is the one the loop ends in. *)
Lemma for_range_last {St : Type} (body : nat -> St -> result St) :
  forall n st st',
    for_range body n st = Ok st' -> last (trace body n st) st = st'.
Proof.
  induction n as [| i IH]; intros st st' H.
  - simpl in H. inversion H; subst. reflexivity.
  - cbn [for_range] in H. apply bind_Ok_inv in H.
    destruct H as [st1 [Hb H]]. cbn [trace]. rewrite Hb.
    apply IH in H. rewrite <- H. apply last_cons.
Qed.

(** ** Failed assertions of [alg_01] *)

Lemma init_01_invalid stock_series bond_series stock_val bond_val
  decr_perc sell_perc :
  (exists x, (In x decr_perc \/ In x sell_perc) /\ ~ (0 < x /\ x < 100)) \/
  length decr_perc <> length sell_perc \/
  length stock_series <> length bond_series ->
  Alg01.init stock_series bond_series stock_val bond_val decr_perc sell_perc
  = Raise AssertionError.
Proof.
  intro H. unfold Alg01.init.
  destruct (all_valid decr_perc) eqn:Ed; [| reflexivity].
  destruct (all_valid sell_perc) eqn:Es; [| reflexivity].
  destruct (length decr_perc =? length sell_perc)%nat eqn:El; [| reflexivity].
  destruct (length stock_series =? length bond_series)%nat eqn:Ez;
    [| reflexivity].
  exfalso.
  destruct H as [[x [Hin Hx]] | [Hl | Hz]].
  - apply Hx. destruct Hin as [Hin | Hin].
    + exact (proj1 (all_valid_spec decr_perc) Ed x Hin).
    + exact (proj1 (all_valid_spec sell_perc) Es x Hin).
  - apply Hl. apply Nat.eqb_eq. exact El.
  - apply Hz. apply Nat.eqb_eq. exact Ez.
Qed.

(** C1.  When a value of [decr_perc] or [sell_perc] is outside the open
    interval (0,100), or the two lists have different lengths, or the two
    series have different lengths, the call raises the exception of a failed
    assertion (the InvalidParameter of the specification), whatever the
    series and the valuations are; no local of the simulation is initialised
    and no iteration of the loop is run: the list of states is empty. *)
Theorem alg_01_rejects_invalid_parameters :
  forall stock_series bond_series stock_val bond_val decr_perc sell_perc
         monthly_addn,
    (exists x, (In x decr_perc \/ In x sell_perc) /\ ~ (0 < x /\ x < 100)) \/
    length decr_perc <> length sell_perc \/
    length stock_series <> length bond_series ->
    Alg01.alg_01 stock_series bond_series stock_val bond_val decr_perc
      sell_perc monthly_addn = Raise AssertionError /\
    Alg01.run stock_series bond_series stock_val bond_val decr_perc
      sell_perc monthly_addn = Raise AssertionError /\
    Alg01.states stock_series bond_series stock_val bond_val decr_perc
      sell_perc monthly_addn = [].
Proof.
  intros S B sv bv dp sp addn H.
  pose proof (init_01_invalid S B sv bv dp sp H) as Hi.
  unfold Alg01.alg_01, Alg01.run, Alg01.states. rewrite Hi. simpl. auto.
Qed.

(** Scenarios B and C of the specification, and a list-length mismatch on a
    series that is empty. *)
Lemma alg_01_rejects_invalid_parameters_witness :
  Alg01.alg_01 [5; 4; 3; 2; 1] [4; 3; 2; 1] 1000 1000 [5] [10] 0
  = Raise AssertionError /\
  Alg01.alg_01 [100; 90; 100] [50; 50; 50] 1000 1000 [150] [10] 0
  = Raise AssertionError /\
  Alg01.alg_01 [] [] 1000 1000 [5; 10] [10] 0 = Raise AssertionError.
Proof.
  split; [| split].
  - apply (alg_01_rejects_invalid_parameters
             [5; 4; 3; 2; 1] [4; 3; 2; 1] 1000 1000 [5] [10] 0).
    right. right. simpl. lia.
  - apply (alg_01_rejects_invalid_parameters
             [100; 90; 100] [50; 50; 50] 1000 1000 [150] [10] 0).
    left. exists 150. split; [left; simpl; auto |].
    intros [_ H]. revert H. vm_compute. discriminate.
  - apply (alg_01_rejects_invalid_parameters [] [] 1000 1000 [5; 10] [10] 0).
    right. left. simpl. lia.
Defined.

(** ** The ladder is indexed after it has been emptied *)

(** Both ladders raise as soon as their condition is evaluated on an empty
    list of triggers, whatever the drawdown is. *)
Lemma while_decrease_01_empty cd sell_perc stock_val bond_val :
  Alg01.while_decrease cd [] sell_perc stock_val bond_val = Raise IndexError.
Proof. reflexivity. Qed.

Lemma while_decrease_02_empty cd decrease_buys m_stock_val margin :
  Alg02.while_decrease cd [] decrease_buys m_stock_val margin
  = Raise IndexError.
Proof. reflexivity. Qed.

(** A ladder never fires more entries than it holds: when it returns, the
    triggers left are a suffix of the ones it was given. *)
Lemma while_decrease_01_suffix cd :
  forall decr_perc sell_perc stock_val bond_val d' s' sv' bv',
    Alg01.while_decrease cd decr_perc sell_perc stock_val bond_val
    = Ok (d', s', sv', bv') ->
    exists fired, decr_perc = fired ++ d' /\
                  (length fired <= length decr_perc)%nat.
Proof.
  induction decr_perc as [| d ds IH]; intros sp sv bv d' s' sv' bv' H.
  - discriminate.
  - simpl in H. destruct (Qltb d cd).
    + destruct sp as [| p sp]; [discriminate |].
      apply IH in H. destruct H as [fired [-> Hlen]].
      exists (d :: fired). split; [reflexivity | simpl; lia].
    + inversion H; subst. exists []. split; [reflexivity | simpl; lia].
Qed.

Lemma while_decrease_02_suffix cd decrease_buys :
  forall decrease_percentages m_stock_val margin d' m' mg',
    Alg02.while_decrease cd decrease_percentages decrease_buys
      m_stock_val margin = Ok (d', m', mg') ->
    exists fired, decrease_percentages = fired ++ d' /\
                  (length fired <= length decrease_percentages)%nat.
Proof.
  induction decrease_percentages as [| d ds IH]; intros m mg d' m' mg' H.
  - discriminate.
  - simpl in H. destruct (Qltb d cd).
    + destruct decrease_buys as [| b bs]; [discriminate |].
      apply IH in H. destruct H as [fired [-> Hlen]].
      exists (d :: fired). split; [reflexivity | simpl; lia].
    + inversion H; subst. exists []. split; [reflexivity | simpl; lia].
Qed.

(** C2.  The claim fails on the code: a ladder whose last entry fires is
    indexed again by the loop condition and the call raises IndexError
    instead of going on to the end of the series.  Here the single entry of
    each engine fires on the first new minimum (a drawdown of 10% against a
    trigger of 5% in [alg_01], of 60% against a trigger of 0.5 in [alg_02]);
    the loop that has just popped it raises, and so does the call. *)
Theorem depleted_ladder_raises :
  Alg01.while_decrease (1 # 10) [5 / 100] [10 / 100] 900 1000
  = Raise IndexError /\
  Alg01.alg_01 [80; 90; 100] [50; 50; 50] 1000 1000 [5] [10] 0
  = Raise IndexError /\
  Alg02.while_decrease (6 # 10) [1 # 2] [10] 0 1000 = Raise IndexError /\
  Alg02.alg_02 [40; 100] 3 1000 [1 # 2] [10] [] [] = Raise IndexError.
Proof. repeat split; vm_compute; reflexivity. Qed.

(** C3.  The claim fails on the code: with empty lists the first new minimum
    of the stock price indexes the empty list of triggers.  The stock falls
    from 100 to 90 and the call raises IndexError where buy and hold returns
    (900 + 1000) / 2000 - 1. *)
Theorem empty_ladder_raises_on_new_minimum :
  Alg01.alg_01 [90; 100] [50; 50] 1000 1000 [] [] 0 = Raise IndexError /\
  Alg01.states [90; 100] [50; 50] 1000 1000 [] [] 0
  = [Alg01.mkState 1000 1000 [] [] 100 100 0].
Proof. split; vm_compute; reflexivity. Qed.

(** C6.  The claim fails on the code at Scenario A: on the step from 100 to
    90 the single entry fires once, is popped, and the loop condition then
    reads [decr_perc[0]] on the empty list; the call raises IndexError before
    the step from 90 to 100 and returns no portfolio change.  The states
    reached are the initial ones only. *)
Theorem scenario_A_raises :
  Alg01.alg_01 [100; 90; 100] [50; 50; 50] 1000 1000 [5] [10] 0
  = Raise IndexError /\
  Alg01.states [100; 90; 100] [50; 50; 50] 1000 1000 [5] [10] 0
  = [Alg01.mkState 1000 1000 [round64 (5 / 100)] [round64 (10 / 100)]
       100 100 0].
Proof. split; vm_compute; reflexivity. Qed.

(** With one more entry in the ladder, too high to fire, the same prices give
    the return computed by hand for Scenario A: the stock goes from 1000 to
    900, 10% of the bonds are sold into it, and the stock then grows by
    100/90; the return is 1/180, up to the rounding of 10/100 to the nearest
    binary64 value. *)
Lemma scenario_A_with_spare_entry :
  exists r,
    Alg01.alg_01 [100; 90; 100] [50; 50; 50] 1000 1000 [5; 50] [10; 20] 0
    = Ok r /\
    (1 # 180) - (1 # 10 ^ 15) < r /\ r < (1 # 180) + (1 # 10 ^ 15).
Proof.
  eexists. split; [vm_compute; reflexivity | split; reflexivity].
Qed.

(** ** Pairing of triggers and actions *)

(** In [alg_01] a firing pops one trigger and the fraction at the same
    position, and sells that fraction of the bonds. *)
Lemma while_decrease_01_fires cd d ds p ps stock_val bond_val :
  d < cd ->
  Alg01.while_decrease cd (d :: ds) (p :: ps) stock_val bond_val
  = Alg01.while_decrease cd ds ps
      (stock_val + bond_val * p) (bond_val - bond_val * p).
Proof.
  intro H. simpl. apply Qltb_lt in H. rewrite H. reflexivity.
Qed.

(** C7.  The claim fails on the code for [alg_02]: a firing pops the trigger
    only, so every firing draws the fraction [decrease_buys[0]].  A fall from
    100 to 40 crosses the triggers 0.1 and 0.2.  The first firing draws 10%
    of 1000; the second draws 10% of the 900 left, not the 50% paired with
    the second trigger: the position ends at 190 and the margin at 710, where
    pairing by position gives 550 and 350. *)
Theorem alg_02_fires_first_buy_again :
  exists st,
    Alg02.run [40; 100] 3 1000 [1 # 10; 1 # 5; 9 # 10] [10; 50; 20] [] []
    = Ok st /\
    Alg02.decrease_percentages st = [9 # 10] /\
    Alg02.m_stock_val st == 190 /\
    Alg02.margin st == 710 /\
    ~ Alg02.m_stock_val st == 100 + 50 * (1000 - 100) / 100.
Proof.
  eexists. split; [vm_compute; reflexivity |].
  simpl. repeat split; try reflexivity. vm_compute. discriminate.
Qed.

(** ** The comparison with the front trigger is strict *)

Lemma while_decrease_01_holds cd d ds ps stock_val bond_val :
  cd <= d ->
  Alg01.while_decrease cd (d :: ds) ps stock_val bond_val
  = Ok (d :: ds, ps, stock_val, bond_val).
Proof.
  intro H. simpl. apply Qltb_ge in H. rewrite H. reflexivity.
Qed.

Lemma while_decrease_02_holds cd d ds bs m_stock_val margin :
  cd <= d ->
  Alg02.while_decrease cd (d :: ds) bs m_stock_val margin
  = Ok (d :: ds, m_stock_val, margin).
Proof.
  intro H. simpl. apply Qltb_ge in H. rewrite H. reflexivity.
Qed.

(** C4.  On a new minimum whose drawdown equals the front trigger, neither
    engine fires: the iteration ends with the whole ladder in place, and with
    the valuations ([alg_01]: the ones after the price-ratio update;
    [alg_02]: the position and the margin) untouched by the ladder.  The two
    values compared are the ones the code compares: the drawdown is the
    binary64 value the code computes ([Alg01.drawdown], [Alg02.drawdown]),
    and the trigger is the one held in the ladder, in [alg_01] the binary64
    quotient of the percentage by 100. *)
Theorem equal_drawdown_does_not_fire :
  forall (d : Q) (ds : list Q),
    (forall stock_series bond_series monthly_addn i st si sv bv,
        iloc stock_series i = Ok si ->
        si < Alg01.min st ->
        Alg01.revalue stock_series bond_series monthly_addn i
          (Alg01.stock_val st) (Alg01.bond_val st) = Ok (sv, bv) ->
        Alg01.decr_perc st = d :: ds ->
        Alg01.drawdown si (new_max (Alg01.max st) si) == d ->
        Alg01.body stock_series bond_series monthly_addn i st
        = Ok (Alg01.mkState sv bv (d :: ds) (Alg01.sell_perc st)
                (new_max (Alg01.max st) si) si
                (Alg01.drawdown si (new_max (Alg01.max st) si)))) /\
    (forall series decrease_buys i st si,
        iloc series i = Ok si ->
        si < Alg02.min st ->
        Alg02.decrease_percentages st = d :: ds ->
        Alg02.drawdown si (new_max (Alg02.max st) si) == d ->
        Alg02.body series decrease_buys i st
        = Ok (Alg02.mkState (Alg02.margin st) (Alg02.m_stock_val st)
                (d :: ds) (new_max (Alg02.max st) si) si
                (Alg02.drawdown si (new_max (Alg02.max st) si))
                (Alg02.current_increase st))).
Proof.
  intros d ds. split.
  - intros S B addn i st si sv bv Hsi Hlt Hv Hd Heq.
    unfold Alg01.body. rewrite Hv. simpl. rewrite Hsi. simpl.
    apply Qltb_lt in Hlt. rewrite Hlt, Hd.
    rewrite while_decrease_01_holds by (rewrite Heq; apply Qle_refl).
    reflexivity.
  - intros S db i st si Hsi Hlt Hd Heq.
    unfold Alg02.body. rewrite Hsi. simpl.
    apply Qltb_lt in Hlt. rewrite Hlt, Hd.
    rewrite while_decrease_02_holds by (rewrite Heq; apply Qle_refl).
    reflexivity.
Qed.

(** A fall from 100 to 50 against a trigger of 50% in [alg_01] (the binary64
    quotient 50/100 after the conversion, which is 1/2, as the drawdown the
    code computes is) and against a trigger of 0.5 in [alg_02]. *)
Lemma equal_drawdown_does_not_fire_witness :
  Alg01.body [50; 100] [50; 50] 0 0
    (Alg01.mkState 1000 1000 [round64 (50 / 100)] [round64 (10 / 100)]
       100 100 0)
  = Ok (Alg01.mkState (1000 * (50 / 100)) (1000 * (50 / 50) + 0)
          [round64 (50 / 100)] [round64 (10 / 100)] (new_max 100 50) 50
          (Alg01.drawdown 50 (new_max 100 50))) /\
  Alg02.body [50; 100] [10] 0 (Alg02.mkState 1000 0 [1 # 2] 100 100 0 0)
  = Ok (Alg02.mkState 1000 0 [1 # 2] (new_max 100 50) 50
          (Alg02.drawdown 50 (new_max 100 50)) 0).
Proof.
  split.
  - apply (proj1 (equal_drawdown_does_not_fire (round64 (50 / 100)) [])
             [50; 100] [50; 50] 0 0%nat
             (Alg01.mkState 1000 1000 [round64 (50 / 100)]
                [round64 (10 / 100)] 100 100 0) 50).
    + reflexivity.
    + reflexivity.
    + reflexivity.
    + reflexivity.
    + vm_compute. reflexivity.
  - apply (proj2 (equal_drawdown_does_not_fire (1 # 2) [])
             [50; 100] [10] 0%nat (Alg02.mkState 1000 0 [1 # 2] 100 100 0 0)
             50).
    + reflexivity.
    + reflexivity.
    + reflexivity.
    + vm_compute. reflexivity.
Defined.

(** Where the exact quotients tie and the binary64 values do not, the model
    follows the code.  For a fall from 100 to 95 the code computes a drawdown
    above its trigger 5/100 and fires: with the single entry [5], [alg_01]
    empties the ladder and raises; with a spare entry it sells 10% of the
    bonds and returns a change near 0.00263, not the 0 of a portfolio that
    is not rebalanced. *)
Lemma fall_to_95_exceeds_5_percent :
  round64 (5 / 100) < Alg01.drawdown 95 100 /\
  Alg01.alg_01 [100; 95; 100] [50; 50; 50] 1000 1000 [5] [10] 0
  = Raise IndexError /\
  exists r,
    Alg01.alg_01 [100; 95; 100] [50; 50; 50] 1000 1000 [5; 50] [10; 20] 0
    = Ok r /\ 263 # 100000 < r /\ r < 264 # 100000.
Proof.
  split; [vm_compute; reflexivity |].
  split; [vm_compute; reflexivity |].
  eexists. split; [vm_compute; reflexivity | split; reflexivity].
Qed.

(** ** Margin draws *)

Lemma while_decrease_02_fires cd d ds b bs m_stock_val margin :
  d < cd ->
  Alg02.while_decrease cd (d :: ds) (b :: bs) m_stock_val margin
  = Alg02.while_decrease cd ds (b :: bs)
      (m_stock_val + b * margin / 100)
      (margin - (m_stock_val + b * margin / 100)).
Proof.
  intro H. simpl. apply Qltb_lt in H. rewrite H. reflexivity.
Qed.

(** C8.  A firing of the decrease ladder of [alg_02] adds
    [b * margin / 100] to the margin-stock value, [b] being the fraction read
    from [decrease_buys] and [margin] the margin available before the
    firing, and then takes the whole new margin-stock value off the margin.
    When one entry fires and the next does not, these are the values the
    loop returns; and whenever the position was not empty before the firing,
    the margin left differs from the one that taking off the single draw
    would leave. *)
Theorem margin_draw_takes_cumulative_value :
  forall cd d ds b bs m_stock_val margin,
    d < cd ->
    let drawn := b * margin / 100 in
    Alg02.while_decrease cd (d :: ds) (b :: bs) m_stock_val margin
    = Alg02.while_decrease cd ds (b :: bs)
        (m_stock_val + drawn) (margin - (m_stock_val + drawn)) /\
    (forall d' ds', ds = d' :: ds' -> cd <= d' ->
       Alg02.while_decrease cd (d :: ds) (b :: bs) m_stock_val margin
       = Ok (ds, m_stock_val + drawn, margin - (m_stock_val + drawn))) /\
    (~ m_stock_val == 0 ->
     ~ margin - (m_stock_val + drawn) == margin - drawn).
Proof.
  intros cd d ds b bs m mg H drawn. split; [| split].
  - apply while_decrease_02_fires. exact H.
  - intros d' ds' -> H'. rewrite while_decrease_02_fires by exact H.
    apply while_decrease_02_holds. exact H'.
  - intros Hm Heq. apply Hm. lra.
Qed.

(** The second firing of the run of C7: 100 is held and 900 is available;
    90 is drawn and 190 is taken off the margin. *)
Lemma margin_draw_takes_cumulative_value_witness :
  Alg02.while_decrease (6 # 10) [1 # 5; 9 # 10] [10; 50; 20] 100 900
  = Ok ([9 # 10], 100 + 10 * 900 / 100, 900 - (100 + 10 * 900 / 100)).
Proof.
  apply (proj1 (proj2 (margin_draw_takes_cumulative_value
                         (6 # 10) (1 # 5) [9 # 10] 10 [50; 20] 100 900
                         ltac:(reflexivity)))
           (9 # 10) [] eq_refl).
  vm_compute. discriminate.
Defined.

(** ** Inputs that [alg_02] validates and never reads again *)

Lemma init_02_ignores series margin decrease_percentages decrease_buys
  margin_rate increase_percentages increase_sells
  margin_rate' increase_percentages' increase_sells' :
  all_valid increase_percentages = true ->
  all_valid increase_sells = true ->
  all_valid increase_percentages' = true ->
  all_valid increase_sells' = true ->
  Alg02.init series margin_rate margin decrease_percentages decrease_buys
    increase_percentages increase_sells
  = Alg02.init series margin_rate' margin decrease_percentages decrease_buys
      increase_percentages' increase_sells'.
Proof.
  intros H1 H2 H3 H4. unfold Alg02.init. rewrite H1, H2, H3, H4. reflexivity.
Qed.

(** C9.  Two calls of [alg_02] on the same series, margin, decrease
    percentages and decrease buys, whose increase lists pass the validation,
    go through the same states (so the same margin-stock value and available
    margin after every iteration), end the loop in the same way and return
    the same result, whatever their margin rates and increase lists are. *)
Theorem alg_02_ignores_rate_and_increase_side :
  forall series margin decrease_percentages decrease_buys
         margin_rate increase_percentages increase_sells
         margin_rate' increase_percentages' increase_sells',
    all_valid increase_percentages = true ->
    all_valid increase_sells = true ->
    all_valid increase_percentages' = true ->
    all_valid increase_sells' = true ->
    Alg02.states series margin_rate margin decrease_percentages
      decrease_buys increase_percentages increase_sells
    = Alg02.states series margin_rate' margin decrease_percentages
        decrease_buys increase_percentages' increase_sells' /\
    Alg02.run series margin_rate margin decrease_percentages
      decrease_buys increase_percentages increase_sells
    = Alg02.run series margin_rate' margin decrease_percentages
        decrease_buys increase_percentages' increase_sells' /\
    Alg02.alg_02 series margin_rate margin decrease_percentages
      decrease_buys increase_percentages increase_sells
    = Alg02.alg_02 series margin_rate' margin decrease_percentages
        decrease_buys increase_percentages' increase_sells'.
Proof.
  intros S mg dp db r ip ins r' ip' ins' H1 H2 H3 H4.
  pose proof (init_02_ignores S mg dp db r ip ins r' ip' ins' H1 H2 H3 H4)
    as Hi.
  unfold Alg02.alg_02, Alg02.run, Alg02.states. rewrite Hi. auto.
Qed.

Lemma alg_02_ignores_rate_and_increase_side_witness :
  Alg02.states [40; 100] 3 1000 [1 # 10; 1 # 5; 9 # 10] [10; 50; 20]
    [5] [50]
  = Alg02.states [40; 100] 12 1000 [1 # 10; 1 # 5; 9 # 10] [10; 50; 20]
      [10; 20; 30] [] /\
  Alg02.run [40; 100] 3 1000 [1 # 10; 1 # 5; 9 # 10] [10; 50; 20]
    [5] [50]
  = Alg02.run [40; 100] 12 1000 [1 # 10; 1 # 5; 9 # 10] [10; 50; 20]
      [10; 20; 30] [] /\
  Alg02.alg_02 [40; 100] 3 1000 [1 # 10; 1 # 5; 9 # 10] [10; 50; 20]
    [5] [50]
  = Alg02.alg_02 [40; 100] 12 1000 [1 # 10; 1 # 5; 9 # 10] [10; 50; 20]
      [10; 20; 30] [].
Proof.
  apply (alg_02_ignores_rate_and_increase_side
           [40; 100] 1000 [1 # 10; 1 # 5; 9 # 10] [10; 50; 20]
           3 [5] [50] 12 [10; 20; 30] []); reflexivity.
Defined.

(** ** Running extrema and drawdowns *)

Lemma new_max_ge_max (mx price : Q) : mx <= new_max mx price.
Proof.
  unfold new_max. destruct (Qltb mx price) eqn:E.
  - apply Qltb_lt in E. apply Qlt_le_weak. exact E.
  - apply Qle_refl.
Qed.

Lemma new_max_ge_price (mx price : Q) : price <= new_max mx price.
Proof.
  unfold new_max. destruct (Qltb mx price) eqn:E.
  - apply Qle_refl.
  - apply Qltb_ge in E. exact E.
Qed.

Lemma iloc_In (series : list Q) (i : nat) (x : Q) :
  iloc series i = Ok x -> In x series.
Proof.
  unfold iloc. destruct (nth_error series i) eqn:E; [| discriminate].
  intro H. inversion H; subst. eapply nth_error_In. exact E.
Qed.

Lemma oldest_In (series : list Q) (x : Q) : oldest series = Ok x -> In x series.
Proof.
  unfold oldest. destruct (length series); [discriminate | apply iloc_In].
Qed.

Lemma drawdown_01_range (mn mx : Q) :
  0 < mn -> mn <= mx ->
  0 <= Alg01.drawdown mn mx /\ Alg01.drawdown mn mx <= 1.
Proof.
  intros Hmn Hle. unfold Alg01.drawdown.
  assert (Hmx : 0 < mx) by (eapply Qlt_le_trans; eauto).
  assert (H1 : mn / mx <= 1) by (apply Qle_shift_div_r; [exact Hmx | lra]).
  assert (H0 : 0 <= mn / mx) by (apply Qle_shift_div_l; [exact Hmx | lra]).
  destruct (round64_unit _ H0 H1) as [Hr0 Hr1].
  apply round64_unit; lra.
Qed.

Lemma drawdown_02_range (mn mx : Q) :
  0 < mn -> mn <= mx -> binary64 mx ->
  0 <= Alg02.drawdown mn mx /\ Alg02.drawdown mn mx <= 1.
Proof.
  intros Hmn Hle Hb. unfold Alg02.drawdown.
  assert (Hmx : 0 < mx) by (eapply Qlt_le_trans; eauto).
  assert (Ha0 : 0 <= round64 (mx - mn)) by (apply round64_nonneg; lra).
  assert (Ha1 : round64 (mx - mn) <= mx).
  { unfold binary64 in Hb.
    apply Qle_trans with (round64 mx); [apply round64_mono; lra |].
    rewrite Hb. apply Qle_refl. }
  apply round64_unit.
  - apply Qle_shift_div_l; [exact Hmx | lra].
  - apply Qle_shift_div_r; [exact Hmx | lra].
Qed.

Lemma new_max_cases (P : Q -> Prop) (mx price : Q) :
  P mx -> P price -> P (new_max mx price).
Proof.
  intros H1 H2. unfold new_max. destruct (Qltb mx price); assumption.
Qed.

(** The argument shared by the two engines: a loop whose body updates the
    extrema as lines 87-95 and 194-202 do, on prices that are positive and,
    where the drawdown needs it, binary64 values ([ok]). *)
Section Walker.

Context {St : Type}.
Variables max min current_decrease : St -> Q.
Variable drawdown : Q -> Q -> Q.
Variable series : list Q.
Variable body : nat -> St -> result St.
Variable ok : Q -> Prop.

Hypothesis body_extrema :
  forall i st st',
    body i st = Ok st' ->
    exists price,
      iloc series i = Ok price /\
      max st' = new_max (max st) price /\
      ((price < min st /\ min st' = price /\
        current_decrease st' = drawdown price (max st')) \/
       (min st <= price /\ min st' = min st /\
        current_decrease st' = current_decrease st)).

Hypothesis ok_positive : forall x, ok x -> 0 < x.

Hypothesis drawdown_range :
  forall mn mx, ok mn -> ok mx -> mn <= mx ->
                0 <= drawdown mn mx /\ drawdown mn mx <= 1.

Let ordered (st : St) : Prop := min st <= max st.

Let bounded (st : St) : Prop :=
  ok (min st) /\ ok (max st) /\ min st <= max st /\
  0 <= current_decrease st /\ current_decrease st <= 1.

Lemma body_ordered i st st' :
  body i st = Ok st' -> ordered st ->
  ordered st' /\ max st <= max st' /\ min st' <= min st.
Proof.
  unfold ordered. intros H Hord.
  destruct (body_extrema i st st' H) as [p [_ [Hmax Hmin]]].
  rewrite Hmax.
  destruct Hmin as [[Hlt [-> _]] | [Hge [-> _]]].
  - split; [apply new_max_ge_price |].
    split; [apply new_max_ge_max | apply Qlt_le_weak; exact Hlt].
  - split; [eapply Qle_trans; [exact Hord | apply new_max_ge_max] |].
    split; [apply new_max_ge_max | apply Qle_refl].
Qed.

Lemma body_bounded i st st' :
  (forall x, In x series -> ok x) ->
  body i st = Ok st' -> bounded st -> bounded st'.
Proof.
  unfold bounded. intros Hok H [Hmn [Hmx [Hord [Hc0 Hc1]]]].
  destruct (body_extrema i st st' H) as [p [Hp [Hmax Hmin]]].
  pose proof (Hok p (iloc_In _ _ _ Hp)) as Hpok.
  pose proof (new_max_cases ok _ _ Hmx Hpok) as Hnm.
  destruct Hmin as [[Hlt [Hm Hcd]] | [Hge [Hm Hcd]]].
  - rewrite Hm, Hcd, Hmax. split; [exact Hpok |]. split; [exact Hnm |].
    split; [apply new_max_ge_price |].
    apply drawdown_range; [exact Hpok | exact Hnm | apply new_max_ge_price].
  - rewrite Hm, Hcd, Hmax. split; [exact Hmn |]. split; [exact Hnm |].
    split; [eapply Qle_trans; [exact Hord | apply new_max_ge_max] |].
    split; assumption.
Qed.

Lemma trace_ordered :
  forall n st, ordered st -> Forall ordered (trace body n st).
Proof.
  induction n as [| i IH]; intros st Hst; simpl; [constructor |].
  destruct (body i st) as [st' | e] eqn:E; [| constructor].
  destruct (body_ordered i st st' E Hst) as [Hst' _].
  constructor; [exact Hst' | apply IH; exact Hst'].
Qed.

Lemma trace_bounded :
  (forall x, In x series -> ok x) ->
  forall n st, bounded st -> Forall bounded (trace body n st).
Proof.
  intro Hok. induction n as [| i IH]; intros st Hst; simpl; [constructor |].
  destruct (body i st) as [st' | e] eqn:E; [| constructor].
  pose proof (body_bounded i st st' Hok E Hst) as Hst'.
  constructor; [exact Hst' | apply IH; exact Hst'].
Qed.

Lemma trace_monotone :
  forall n st, ordered st ->
    forall k a b,
      nth_error (st :: trace body n st) k = Some a ->
      nth_error (st :: trace body n st) (S k) = Some b ->
      max a <= max b /\ min b <= min a.
Proof.
  induction n as [| i IH]; intros st Hst k a b Ha Hb.
  - simpl in Hb. destruct k; discriminate.
  - simpl in Ha, Hb. destruct (body i st) as [st' | e] eqn:E.
    + destruct (body_ordered i st st' E Hst) as [Hst' Hmono].
      destruct k as [| k].
      * simpl in Ha, Hb. inversion Ha; inversion Hb; subst. exact Hmono.
      * simpl in Ha. apply (IH st' Hst' k a b); [exact Ha | exact Hb].
    + destruct k; simpl in Hb; [discriminate | destruct k; discriminate].
Qed.

(** From an initial state whose extrema are both the oldest price. *)
Lemma walker_tracks_extrema n st0 :
  max st0 = min st0 -> oldest series = Ok (max st0) ->
  tracks_extrema max min series (st0 :: trace body n st0).
Proof.
  intros Heq Hold.
  assert (H0 : ordered st0) by (unfold ordered; rewrite Heq; apply Qle_refl).
  split; [| split].
  - intros st H. simpl in H. inversion H; subst. auto.
  - intros st [<- | Hin]; [exact H0 |].
    pose proof (trace_ordered n st0 H0) as HF.
    rewrite Forall_forall in HF. exact (HF st Hin).
  - apply trace_monotone. exact H0.
Qed.

Lemma walker_drawdowns_in_range n st0 :
  (forall x, In x series -> ok x) ->
  max st0 = min st0 -> oldest series = Ok (max st0) ->
  current_decrease st0 = 0 ->
  drawdowns_in_range max min current_decrease drawdown series
    (st0 :: trace body n st0).
Proof.
  intros Hok Heq Hold Hcd.
  assert (H0 : bounded st0).
  { unfold bounded. rewrite <- Heq, Hcd.
    pose proof (Hok _ (oldest_In _ _ Hold)) as Hmx.
    split; [exact Hmx |]. split; [exact Hmx |].
    split; [apply Qle_refl | split; lra]. }
  assert (HF : forall st, In st (st0 :: trace body n st0) -> bounded st).
  { intros st [<- | Hin]; [exact H0 |].
    pose proof (trace_bounded Hok n st0 H0) as HF.
    rewrite Forall_forall in HF. exact (HF st Hin). }
  split.
  - intros st Hin. destruct (HF st Hin) as [Hmn [Hmx [Hord [Hc0 Hc1]]]].
    split; [apply ok_positive; exact Hmx | split; assumption].
  - intros st i p Hin Hp Hlt.
    destruct (HF st Hin) as [Hmn [Hmx _]].
    pose proof (Hok p (iloc_In _ _ _ Hp)) as Hpok.
    pose proof (new_max_cases ok _ _ Hmx Hpok) as Hnm.
    split; [apply ok_positive; exact Hnm |].
    apply drawdown_range; [exact Hpok | exact Hnm | apply new_max_ge_price].
Qed.

End Walker.

Lemma body_01_extrema stock_series bond_series monthly_addn i st st' :
  Alg01.body stock_series bond_series monthly_addn i st = Ok st' ->
  exists price,
    iloc stock_series i = Ok price /\
    Alg01.max st' = new_max (Alg01.max st) price /\
    ((price < Alg01.min st /\ Alg01.min st' = price /\
      Alg01.current_decrease st'
      = Alg01.drawdown price (Alg01.max st')) \/
     (Alg01.min st <= price /\ Alg01.min st' = Alg01.min st /\
      Alg01.current_decrease st' = Alg01.current_decrease st)).
Proof.
  unfold Alg01.body. intro H.
  apply bind_Ok_inv in H. destruct H as [[sv bv] [_ H]].
  apply bind_Ok_inv in H. destruct H as [price [Hp H]].
  exists price. split; [exact Hp |].
  destruct (Qltb price (Alg01.min st)) eqn:E.
  - apply bind_Ok_inv in H. destruct H as [[[[d s] sv'] bv'] [_ H]].
    inversion H; subst; simpl. split; [reflexivity |].
    left. apply Qltb_lt in E. auto.
  - inversion H; subst; simpl. split; [reflexivity |].
    right. apply Qltb_ge in E. auto.
Qed.

Lemma body_02_extrema series decrease_buys i st st' :
  Alg02.body series decrease_buys i st = Ok st' ->
  exists price,
    iloc series i = Ok price /\
    Alg02.max st' = new_max (Alg02.max st) price /\
    ((price < Alg02.min st /\ Alg02.min st' = price /\
      Alg02.current_decrease st'
      = Alg02.drawdown price (Alg02.max st')) \/
     (Alg02.min st <= price /\ Alg02.min st' = Alg02.min st /\
      Alg02.current_decrease st' = Alg02.current_decrease st)).
Proof.
  unfold Alg02.body. intro H.
  apply bind_Ok_inv in H. destruct H as [price [Hp H]].
  exists price. split; [exact Hp |].
  destruct (Qltb price (Alg02.min st)) eqn:E.
  - apply bind_Ok_inv in H. destruct H as [[[d m] mg] [_ H]].
    inversion H; subst; simpl. split; [reflexivity |].
    left. apply Qltb_lt in E. auto.
  - inversion H; subst; simpl. split; [reflexivity |].
    right. apply Qltb_ge in E. auto.
Qed.

Lemma init_01_extrema stock_series bond_series stock_val bond_val
  decr_perc sell_perc st :
  Alg01.init stock_series bond_series stock_val bond_val decr_perc sell_perc
  = Ok st ->
  Alg01.max st = Alg01.min st /\ oldest stock_series = Ok (Alg01.max st) /\
  Alg01.current_decrease st = 0.
Proof.
  unfold Alg01.init. intro H.
  repeat (apply bind_Ok_inv in H; destruct H as [_ [_ H]]).
  apply bind_Ok_inv in H. destruct H as [mx [Hmx H]].
  rewrite Hmx in H. simpl in H. inversion H; subst; simpl. auto.
Qed.

Lemma init_02_extrema series margin_rate margin decrease_percentages
  decrease_buys increase_percentages increase_sells st :
  Alg02.init series margin_rate margin decrease_percentages decrease_buys
    increase_percentages increase_sells = Ok st ->
  Alg02.max st = Alg02.min st /\ oldest series = Ok (Alg02.max st) /\
  Alg02.current_decrease st = 0.
Proof.
  unfold Alg02.init. intro H.
  repeat (apply bind_Ok_inv in H; destruct H as [_ [_ H]]).
  apply bind_Ok_inv in H. destruct H as [mx [Hmx H]].
  rewrite Hmx in H. simpl in H. inversion H; subst; simpl. auto.
Qed.

Lemma tracks_extrema_nil {St : Type} (mx mn : St -> Q) (series : list Q) :
  tracks_extrema mx mn series [].
Proof.
  split; [| split].
  - intros st H. discriminate.
  - intros st [].
  - intros k st st' H. destruct k; discriminate.
Qed.

Lemma drawdowns_in_range_nil {St : Type} (mx mn cd : St -> Q)
  (dd : Q -> Q -> Q) (series : list Q) :
  drawdowns_in_range mx mn cd dd series [].
Proof.
  split; [intros st [] | intros st i p []].
Qed.

(** C10, as amended.  For every call of either engine, over the states the
    call goes through: both extrema start at the oldest price, the maximum
    never decreases, the minimum never increases and never exceeds the
    maximum.  When every price of the series is positive (and, for
    [alg_02], a binary64 value, as every price of a pandas series of floats
    is), the maximum is positive in every state, so no drawdown is divided
    by zero, and every drawdown, the one held in a state as well as the one
    computed on a new minimum by the next iteration, lies in the closed
    interval from 0 to 1.  It can be 1: the code rounds [1 - min/max] and
    [(max - min)/max] to binary64 (see [drawdown_reaches_one]). *)
Theorem extrema_and_drawdown_invariants :
  forall stock_series bond_series stock_val bond_val decr_perc sell_perc
         monthly_addn
         series margin_rate margin decrease_percentages decrease_buys
         increase_percentages increase_sells,
    let states_01 :=
      Alg01.states stock_series bond_series stock_val bond_val decr_perc
        sell_perc monthly_addn in
    let states_02 :=
      Alg02.states series margin_rate margin decrease_percentages
        decrease_buys increase_percentages increase_sells in
    tracks_extrema Alg01.max Alg01.min stock_series states_01 /\
    tracks_extrema Alg02.max Alg02.min series states_02 /\
    ((forall x, In x stock_series -> 0 < x) ->
     drawdowns_in_range Alg01.max Alg01.min Alg01.current_decrease
       Alg01.drawdown stock_series states_01) /\
    ((forall x, In x series -> 0 < x /\ binary64 x) ->
     drawdowns_in_range Alg02.max Alg02.min Alg02.current_decrease
       Alg02.drawdown series states_02).
Proof.
  intros S B sv bv dp sp addn S2 r mg dps dbs ips iss. cbv zeta.
  unfold Alg01.states, Alg02.states.
  split; [| split; [| split]].
  - destruct (Alg01.init S B sv bv dp sp) as [st0 | e] eqn:E;
      [| apply tracks_extrema_nil].
    destruct (init_01_extrema _ _ _ _ _ _ _ E) as [Heq [Hold _]].
    apply (walker_tracks_extrema _ _ Alg01.current_decrease Alg01.drawdown);
      [intros i st st'; apply body_01_extrema | exact Heq | exact Hold].
  - destruct (Alg02.init S2 r mg dps dbs ips iss) as [st0 | e] eqn:E;
      [| apply tracks_extrema_nil].
    destruct (init_02_extrema _ _ _ _ _ _ _ _ E) as [Heq [Hold _]].
    apply (walker_tracks_extrema _ _ Alg02.current_decrease Alg02.drawdown);
      [intros i st st'; apply body_02_extrema | exact Heq | exact Hold].
  - intro Hpos.
    destruct (Alg01.init S B sv bv dp sp) as [st0 | e] eqn:E;
      [| apply drawdowns_in_range_nil].
    destruct (init_01_extrema _ _ _ _ _ _ _ E) as [Heq [Hold Hcd]].
    apply (walker_drawdowns_in_range _ _ _ _ _ _ (fun x => 0 < x));
      [ intros i st st'; apply body_01_extrema
      | intros x Hx; exact Hx
      | intros mn mx Hmn _ Hle; apply drawdown_01_range; assumption
      | exact Hpos | exact Heq | exact Hold | exact Hcd ].
  - intro Hpos.
    destruct (Alg02.init S2 r mg dps dbs ips iss) as [st0 | e] eqn:E;
      [| apply drawdowns_in_range_nil].
    destruct (init_02_extrema _ _ _ _ _ _ _ _ E) as [Heq [Hold Hcd]].
    apply (walker_drawdowns_in_range _ _ _ _ _ _
             (fun x => 0 < x /\ binary64 x));
      [ intros i st st'; apply body_02_extrema
      | intros x [Hx _]; exact Hx
      | intros mn mx [Hmn _] [_ Hb] Hle; apply drawdown_02_range; assumption
      | exact Hpos | exact Heq | exact Hold | exact Hcd ].
Qed.

Lemma extrema_and_drawdown_invariants_witness :
  drawdowns_in_range Alg01.max Alg01.min Alg01.current_decrease
    Alg01.drawdown [100; 90; 100]
    (Alg01.states [100; 90; 100] [50; 50; 50] 1000 1000 [5; 50] [10; 20] 0)
  /\
  drawdowns_in_range Alg02.max Alg02.min Alg02.current_decrease
    Alg02.drawdown [40; 100]
    (Alg02.states [40; 100] 3 1000 [1 # 10; 1 # 5; 9 # 10] [10; 50; 20]
       [] []).
Proof.
  pose proof (extrema_and_drawdown_invariants
                [100; 90; 100] [50; 50; 50] 1000 1000 [5; 50] [10; 20] 0
                [40; 100] 3 1000 [1 # 10; 1 # 5; 9 # 10] [10; 50; 20] [] [])
    as H.
  cbv zeta in H. destruct H as [_ [_ [H1 H2]]].
  split.
  - apply H1. intros x Hx. simpl in Hx.
    destruct Hx as [<- | [<- | [<- | []]]]; reflexivity.
  - apply H2. intros x Hx. simpl in Hx.
    destruct Hx as [<- | [<- | []]];
      (split; [reflexivity | vm_compute; reflexivity]).
Defined.

(** The claim as it was stated, with the half-open interval, fails on the
    code: on the positive binary64 prices 1 (the older) and 2^-70, the fall
    is a new minimum whose drawdown, [(1 - 2^-70) / 1] in [alg_02] and
    [1 - 2^-70 / 1] in [alg_01], rounds to 1.  With a trigger of 5, which
    it does not exceed, [alg_02] goes through a state that holds this
    drawdown. *)
Lemma drawdown_reaches_one :
  (forall x, In x [1 # 2 ^ 70; 1] -> 0 < x /\ binary64 x) /\
  Alg01.drawdown (1 # 2 ^ 70) 1 == 1 /\
  exists st,
    In st (Alg02.states [1 # 2 ^ 70; 1] 3 1000 [5] [10] [] []) /\
    ~ Alg02.current_decrease st < 1.
Proof.
  split; [| split].
  - intros x Hx. cbn [In] in Hx.
    destruct Hx as [<- | [<- | []]];
      (split; [reflexivity | vm_compute; reflexivity]).
  - vm_compute. reflexivity.
  - eexists. split.
    + vm_compute. right. left. reflexivity.
    + vm_compute. discriminate.
Qed.

(** ** The monthly addition *)

Lemma iloc_nth (series : list Q) (i : nat) (x : Q) :
  iloc series i = Ok x -> nth i series 0 = x.
Proof.
  unfold iloc. destruct (nth_error series i) eqn:E; [| discriminate].
  intro H. inversion H; subst. apply nth_error_nth. exact E.
Qed.

Lemma iloc_lt (series : list Q) (i : nat) :
  (i < length series)%nat -> iloc series i = Ok (nth i series 0).
Proof.
  intro H. unfold iloc.
  rewrite (nth_error_nth' series 0 H). reflexivity.
Qed.

Lemma revalue_bond stock_series bond_series monthly_addn i sv bv sv' bv' :
  Alg01.revalue stock_series bond_series monthly_addn i sv bv
  = Ok (sv', bv') ->
  exists bi bi1,
    iloc bond_series i = Ok bi /\ iloc bond_series (i + 1) = Ok bi1 /\
    bv' = if (i mod 25 =? 0)%nat
          then bv * (bi / bi1) + monthly_addn
          else bv * (bi / bi1).
Proof.
  unfold Alg01.revalue. intro H.
  apply bind_Ok_inv in H. destruct H as [si [_ H]].
  apply bind_Ok_inv in H. destruct H as [si1 [_ H]].
  apply bind_Ok_inv in H. destruct H as [bi [Hbi H]].
  apply bind_Ok_inv in H. destruct H as [bi1 [Hbi1 H]].
  exists bi, bi1. inversion H; subst. auto.
Qed.

(** With an empty ladder an iteration that completes saw no new minimum,
    and left the valuations as [revalue] computed them. *)
Lemma body_01_empty_ladder stock_series bond_series monthly_addn i st st' :
  Alg01.decr_perc st = [] ->
  Alg01.body stock_series bond_series monthly_addn i st = Ok st' ->
  Alg01.decr_perc st' = [] /\
  Alg01.revalue stock_series bond_series monthly_addn i
    (Alg01.stock_val st) (Alg01.bond_val st)
  = Ok (Alg01.stock_val st', Alg01.bond_val st').
Proof.
  intros Hd H. unfold Alg01.body in H.
  apply bind_Ok_inv in H. destruct H as [[sv bv] [Hv H]].
  apply bind_Ok_inv in H. destruct H as [si [_ H]].
  destruct (Qltb si (Alg01.min st)).
  - rewrite Hd in H. discriminate.
  - inversion H; subst; simpl. auto.
Qed.

Lemma for_range_01_empty_ladder stock_series bond_series monthly_addn :
  forall n st st',
    Alg01.decr_perc st = [] ->
    for_range (Alg01.body stock_series bond_series monthly_addn) n st
    = Ok st' ->
    Alg01.bond_val st'
    = bond_hold bond_series monthly_addn n (Alg01.bond_val st).
Proof.
  induction n as [| i IH]; intros st st' Hd H.
  - simpl in H. inversion H; subst. reflexivity.
  - simpl in H. apply bind_Ok_inv in H. destruct H as [st1 [Hb H]].
    destruct (body_01_empty_ladder _ _ _ _ _ _ Hd Hb) as [Hd1 Hv].
    rewrite (IH st1 st' Hd1 H). cbn [bond_hold].
    destruct (revalue_bond _ _ _ _ _ _ _ _ Hv) as [bi [bi1 [Hbi [Hbi1 ->]]]].
    rewrite (iloc_nth _ _ _ Hbi), (iloc_nth _ _ _ Hbi1). reflexivity.
Qed.

(** The valuation is the initial one multiplied by the ratio of the newest
    to the oldest price, plus the additions. *)
Lemma bond_hold_closed bond_series monthly_addn :
  (forall x, In x bond_series -> 0 < x) ->
  forall n bond_val,
    (n < length bond_series)%nat ->
    bond_hold bond_series monthly_addn n bond_val
    == bond_val * (nth 0 bond_series 0 / nth n bond_series 0)
       + additions bond_series monthly_addn n.
Proof.
  intros Hpos.
  assert (Hnz : forall k, (k < length bond_series)%nat ->
                          ~ nth k bond_series 0 == 0).
  { intros k Hk Hz. pose proof (Hpos _ (nth_In bond_series 0 Hk)) as H.
    rewrite Hz in H. apply (Qlt_irrefl 0 H). }
  induction n as [| i IH]; intros b Hn.
  - simpl. field. apply Hnz. exact Hn.
  - cbn [bond_hold additions].
    replace (i + 1)%nat with (S i) by lia.
    pose proof (Hnz i ltac:(lia)) as Hi.
    pose proof (Hnz (S i) Hn) as HSi.
    destruct (i mod 25 =? 0)%nat; rewrite IH by lia; field; auto.
Qed.

(** On 49 iterations (a series of 50 prices) there are two additions, at the
    indices 25 and 0; the one at 0 is the last update of the valuation. *)
Lemma additions_49 bond_series monthly_addn :
  ~ nth 0 bond_series 0 == 0 -> ~ nth 25 bond_series 0 == 0 ->
  additions bond_series monthly_addn 49
  == monthly_addn * (nth 0 bond_series 0 / nth 25 bond_series 0)
     + monthly_addn.
Proof.
  intros H0 H25.
  cbv beta iota zeta delta
    [additions Nat.modulo Nat.divmod Nat.eqb Nat.sub snd fst].
  field. auto.
Qed.

Lemma init_01_empty_ladder stock_series bond_series stock_val bond_val st :
  Alg01.init stock_series bond_series stock_val bond_val [] [] = Ok st ->
  Alg01.decr_perc st = [] /\ Alg01.bond_val st = bond_val /\
  length stock_series = length bond_series /\
  oldest stock_series = Ok (Alg01.min st).
Proof.
  unfold Alg01.init. simpl.
  destruct (length stock_series =? length bond_series)%nat eqn:El;
    [| discriminate].
  simpl. intro H.
  apply bind_Ok_inv in H. destruct H as [mx [Hmx H]].
  rewrite Hmx in H. simpl in H. inversion H; subst; simpl.
  apply Nat.eqb_eq in El. auto.
Qed.

(** When no price is below the running minimum the loop completes, whatever
    the ladder is. *)
Lemma for_range_01_no_new_minimum stock_series bond_series monthly_addn :
  length stock_series = length bond_series ->
  forall n st,
    (n < length stock_series)%nat ->
    (forall x, In x stock_series -> Alg01.min st <= x) ->
    exists st',
      for_range (Alg01.body stock_series bond_series monthly_addn) n st
      = Ok st'.
Proof.
  intro Hlen. induction n as [| i IH]; intros st Hn Hmin.
  - simpl. eauto.
  - cbn [for_range].
    assert (Hb : exists st1,
               Alg01.body stock_series bond_series monthly_addn i st = Ok st1
               /\ Alg01.min st1 = Alg01.min st).
    { unfold Alg01.body, Alg01.revalue.
      rewrite (iloc_lt stock_series i) by lia.
      rewrite (iloc_lt stock_series (i + 1)) by lia.
      rewrite (iloc_lt bond_series i) by lia.
      rewrite (iloc_lt bond_series (i + 1)) by lia.
      cbn [bind].
      assert (Hge : Qltb (nth i stock_series 0) (Alg01.min st) = false).
      { apply Qltb_ge. apply Hmin. apply nth_In. lia. }
      rewrite Hge. eexists. split; reflexivity. }
    destruct Hb as [st1 [Hb Hm]]. rewrite Hb. cbn [bind].
    apply IH; [lia |]. rewrite Hm. exact Hmin.
Qed.

(** C5.  An iteration of [alg_01] adds [monthly_addn] to the bond valuation,
    once, after the bond price ratio has been applied, when its index is a
    multiple of 25, and adds nothing otherwise.  For series of 50 prices and
    empty lists, a call that reaches the end of the loop has made two
    additions, at the indices 25 and 0: with positive bond prices the final
    bond valuation is the initial one multiplied by the ratio of the newest
    to the oldest bond price, plus the addition of index 25 multiplied by the
    ratio of the newest bond price to the one at index 25, plus the addition
    of index 0.  The call reaches the end of the loop when no stock price is
    below the oldest one. *)
Theorem monthly_addition_on_multiples_of_25 :
  forall stock_series bond_series monthly_addn,
    (forall i sv bv sv' bv',
        Alg01.revalue stock_series bond_series monthly_addn i sv bv
        = Ok (sv', bv') ->
        exists bi bi1,
          iloc bond_series i = Ok bi /\ iloc bond_series (i + 1) = Ok bi1 /\
          bv' = if (i mod 25 =? 0)%nat
                then bv * (bi / bi1) + monthly_addn
                else bv * (bi / bi1)) /\
    (length stock_series = 50%nat ->
     length bond_series = 50%nat ->
     (forall x, In x bond_series -> 0 < x) ->
     forall stock_val bond_val,
       (forall st,
           Alg01.run stock_series bond_series stock_val bond_val [] []
             monthly_addn = Ok st ->
           Alg01.bond_val st
           == bond_val * (nth 0 bond_series 0 / nth 49 bond_series 0)
              + monthly_addn * (nth 0 bond_series 0 / nth 25 bond_series 0)
              + monthly_addn) /\
       ((forall x, In x stock_series -> nth 49 stock_series 0 <= x) ->
        exists st,
          Alg01.run stock_series bond_series stock_val bond_val [] []
            monthly_addn = Ok st)).
Proof.
  intros S B addn. split.
  - intros i sv bv sv' bv'. apply revalue_bond.
  - intros HS HB Hpos sv bv.
    assert (Hnz : forall k, (k < 50)%nat -> ~ nth k B 0 == 0).
    { intros k Hk Hz. rewrite <- HB in Hk.
      pose proof (Hpos _ (nth_In B 0 Hk)) as H.
      rewrite Hz in H. apply (Qlt_irrefl 0 H). }
    split.
    + intros st H. unfold Alg01.run in H.
      apply bind_Ok_inv in H. destruct H as [st0 [Hi H]].
      destruct (init_01_empty_ladder _ _ _ _ _ Hi) as [Hd [Hbv _]].
      rewrite HS in H. change (50 - 1)%nat with 49%nat in H.
      rewrite (for_range_01_empty_ladder _ _ _ _ _ _ Hd H), Hbv.
      rewrite bond_hold_closed by (exact Hpos || lia).
      rewrite additions_49 by (apply Hnz; lia).
      ring.
    + intro Hmin. unfold Alg01.run.
      destruct (Alg01.init S B sv bv [] []) as [st0 | e] eqn:Hi.
      * destruct (init_01_empty_ladder _ _ _ _ _ Hi) as [_ [_ [Hlen Hold]]].
        cbn [bind]. apply for_range_01_no_new_minimum; [exact Hlen | lia |].
        unfold oldest in Hold. rewrite HS in Hold.
        apply iloc_nth in Hold. rewrite <- Hold. exact Hmin.
      * exfalso. revert Hi. unfold Alg01.init. simpl.
        rewrite HS, HB. simpl. unfold oldest. rewrite HS.
        rewrite (iloc_lt S 49) by lia. discriminate.
Qed.

(** Constant prices, an initial bond valuation of 1000 and a monthly addition
    of 100: the call returns with 1000 + 100 + 100 of bonds. *)
Lemma monthly_addition_on_multiples_of_25_witness :
  exists st,
    Alg01.run (repeat 100 50) (repeat 50 50) 1000 1000 [] [] 100 = Ok st /\
    Alg01.bond_val st == 1200.
Proof.
  pose proof (proj2 (monthly_addition_on_multiples_of_25
                       (repeat 100 50) (repeat 50 50) 100)) as H.
  assert (H50 : forall x, In x (repeat 50 50) -> 0 < x).
  { intros x Hx. apply repeat_spec in Hx. subst. reflexivity. }
  assert (H100 : forall x, In x (repeat 100 50) ->
                           nth 49 (repeat 100 50) 0 <= x).
  { intros x Hx. apply repeat_spec in Hx. subst. simpl. apply Qle_refl. }
  destruct (H eq_refl eq_refl H50 1000 1000) as [Hval Hret].
  destruct (Hret H100) as [st Hst].
  exists st. split; [exact Hst |].
  rewrite (Hval st Hst). reflexivity.
Defined.

(** ** Empty lists: buy and hold as long as no new minimum is seen *)

Lemma revalue_stock stock_series bond_series monthly_addn i sv bv sv' bv' :
  Alg01.revalue stock_series bond_series monthly_addn i sv bv
  = Ok (sv', bv') ->
  sv' = sv * (nth i stock_series 0 / nth (i + 1) stock_series 0).
Proof.
  unfold Alg01.revalue. intro H.
  apply bind_Ok_inv in H. destruct H as [si [Hsi H]].
  apply bind_Ok_inv in H. destruct H as [si1 [Hsi1 H]].
  apply bind_Ok_inv in H. destruct H as [bi [_ H]].
  apply bind_Ok_inv in H. destruct H as [bi1 [_ H]].
  inversion H; subst.
  rewrite (iloc_nth _ _ _ Hsi), (iloc_nth _ _ _ Hsi1). reflexivity.
Qed.


Lemma stock_hold_closed stock_series :
  (forall x, In x stock_series -> 0 < x) ->
  forall n stock_val,
    (n < length stock_series)%nat ->
    stock_hold stock_series n stock_val
    == stock_val * (nth 0 stock_series 0 / nth n stock_series 0).
Proof.
  intros Hpos.
  assert (Hnz : forall k, (k < length stock_series)%nat ->
                          ~ nth k stock_series 0 == 0).
  { intros k Hk Hz. pose proof (Hpos _ (nth_In stock_series 0 Hk)) as H.
    rewrite Hz in H. apply (Qlt_irrefl 0 H). }
  induction n as [| i IH]; intros v Hn.
  - simpl. field. apply Hnz. exact Hn.
  - cbn [stock_hold].
    replace (i + 1)%nat with (S i) by lia.
    pose proof (Hnz i ltac:(lia)) as Hi.
    pose proof (Hnz (S i) Hn) as HSi.
    rewrite IH by lia. field. auto.
Qed.


(** * Further properties of the two engines *)

(** ** Which exception a call raises *)

Lemma all_valid_false (l : list Q) :
  all_valid l = false -> exists x, In x l /\ ~ (0 < x /\ x < 100).
Proof.
  induction l as [| a l IH]; [discriminate |].
  unfold all_valid. cbn [forallb]. intro H.
  apply andb_false_iff in H. destruct H as [H | H].
  - exists a. split; [left; reflexivity |].
    intro Ha. apply valid_perc_spec in Ha. congruence.
  - destruct (IH H) as [x [Hin Hx]]. exists x. split; [right; exact Hin | exact Hx].
Qed.

Lemma oldest_nonempty (series : list Q) :
  series <> [] ->
  oldest series = Ok (nth (length series - 1) series 0).
Proof.
  intro H. unfold oldest. destruct series as [| a l]; [congruence |].
  cbn [length]. rewrite iloc_lt by (cbn [length]; lia).
  replace (S (length l) - 1)%nat with (length l) by lia. reflexivity.
Qed.

(** The locals after the assertions have passed. *)
Lemma init_01_valid stock_series bond_series stock_val bond_val
  decr_perc sell_perc :
  all_valid decr_perc = true -> all_valid sell_perc = true ->
  length decr_perc = length sell_perc ->
  length stock_series = length bond_series ->
  Alg01.init stock_series bond_series stock_val bond_val decr_perc sell_perc
  = (mx <- oldest stock_series ;;
     Ok (Alg01.mkState stock_val bond_val
           (map (fun x => round64 (x / 100)) decr_perc)
           (map (fun x => round64 (x / 100)) sell_perc) mx mx 0)).
Proof.
  intros Hd Hs Hl Hz. unfold Alg01.init.
  rewrite Hd, Hs, Hl, Hz, !Nat.eqb_refl. cbn [py_assert bind].
  destruct (oldest stock_series); reflexivity.
Qed.

Lemma while_decrease_01_raise cd :
  forall decr_perc sell_perc stock_val bond_val e,
    Alg01.while_decrease cd decr_perc sell_perc stock_val bond_val = Raise e ->
    e = IndexError.
Proof.
  induction decr_perc as [| d ds IH]; intros sp sv bv e H.
  - inversion H. reflexivity.
  - cbn [Alg01.while_decrease] in H. destruct (Qltb d cd); [| discriminate].
    destruct sp as [| p sp]; [inversion H; reflexivity |].
    eapply IH. exact H.
Qed.

Lemma while_decrease_02_raise cd decrease_buys :
  forall decrease_percentages m_stock_val margin e,
    Alg02.while_decrease cd decrease_percentages decrease_buys
      m_stock_val margin = Raise e ->
    e = IndexError.
Proof.
  induction decrease_percentages as [| d ds IH]; intros m mg e H.
  - inversion H. reflexivity.
  - cbn [Alg02.while_decrease] in H. destruct (Qltb d cd); [| discriminate].
    destruct decrease_buys as [| b bs]; [inversion H; reflexivity |].
    eapply IH. exact H.
Qed.

(** Inside the series every lookup of an iteration succeeds, so the ladder
    is the only part of an iteration that can raise. *)
Lemma body_01_raise stock_series bond_series monthly_addn i st e :
  length stock_series = length bond_series ->
  (i + 1 < length stock_series)%nat ->
  Alg01.body stock_series bond_series monthly_addn i st = Raise e ->
  e = IndexError.
Proof.
  intros Hlen Hi. unfold Alg01.body, Alg01.revalue.
  rewrite (iloc_lt stock_series i) by lia.
  rewrite (iloc_lt stock_series (i + 1)) by lia.
  rewrite (iloc_lt bond_series i) by lia.
  rewrite (iloc_lt bond_series (i + 1)) by lia.
  cbn [bind].
  destruct (Qltb (nth i stock_series 0) (Alg01.min st)); [| discriminate].
  match goal with
  | |- context [Alg01.while_decrease ?c ?d ?s ?v ?b] =>
      destruct (Alg01.while_decrease c d s v b) as [[[[d' s'] sv'] bv'] | e']
               eqn:E
  end; cbn [bind]; [discriminate |].
  intro H. inversion H; subst. eapply while_decrease_01_raise. exact E.
Qed.

Lemma body_02_raise series decrease_buys i st e :
  (i < length series)%nat ->
  Alg02.body series decrease_buys i st = Raise e ->
  e = IndexError.
Proof.
  intros Hi. unfold Alg02.body.
  rewrite (iloc_lt series i) by lia. cbn [bind].
  destruct (Qltb (nth i series 0) (Alg02.min st)); [| discriminate].
  match goal with
  | |- context [Alg02.while_decrease ?c ?d ?s ?v ?b] =>
      destruct (Alg02.while_decrease c d s v b) as [[[d' m'] mg'] | e'] eqn:E
  end; cbn [bind]; [discriminate |].
  intro H. inversion H; subst. eapply while_decrease_02_raise. exact E.
Qed.

Lemma for_range_raise {St : Type} (body : nat -> St -> result St)
  (P : exn -> Prop) (bound : nat) :
  (forall i st e, (i < bound)%nat -> body i st = Raise e -> P e) ->
  forall n st e,
    (n <= bound)%nat -> for_range body n st = Raise e -> P e.
Proof.
  intro Hb. induction n as [| i IH]; intros st e Hn H.
  - discriminate.
  - cbn [for_range] in H. destruct (body i st) as [st' | e'] eqn:E.
    + cbn [bind] in H. apply (IH st' e); [lia | exact H].
    + cbn [bind] in H. inversion H; subst. apply (Hb i st e); [lia | exact E].
Qed.

Lemma run_01_outcome stock_series bond_series stock_val bond_val
  decr_perc sell_perc monthly_addn :
  all_valid decr_perc = true -> all_valid sell_perc = true ->
  length decr_perc = length sell_perc ->
  length stock_series = length bond_series ->
  stock_series <> [] ->
  (exists st,
      Alg01.run stock_series bond_series stock_val bond_val decr_perc
        sell_perc monthly_addn = Ok st) \/
  Alg01.run stock_series bond_series stock_val bond_val decr_perc
    sell_perc monthly_addn = Raise IndexError.
Proof.
  intros Hd Hs Hl Hz Hne. unfold Alg01.run.
  rewrite (init_01_valid _ _ _ _ _ _ Hd Hs Hl Hz).
  rewrite (oldest_nonempty _ Hne). cbn [bind].
  match goal with
  | |- context [for_range ?b ?n ?s] =>
      destruct (for_range b n s) as [st | e] eqn:E
  end; [left; eauto | right].
  f_equal.
  apply (for_range_raise _ (fun e => e = IndexError)
           (length stock_series - 1)) in E; [exact E | | lia].
  intros i st e' Hi. apply body_01_raise; [exact Hz | lia].
Qed.

Lemma port_change_outcome s init_port_val st :
  Alg01.port_change s init_port_val st
  = if (s - 1 =? 0)%nat && Qeq_bool init_port_val 0
    then Raise ZeroDivisionError
    else Ok ((Alg01.stock_val st + Alg01.bond_val st) / init_port_val - 1).
Proof. reflexivity. Qed.

(** X1.  [alg_01] raises the exception of a failed assertion exactly when a
    value of [decr_perc] or [sell_perc] is outside (0,100), or the two lists
    differ in length, or the two series do: with parameters that pass the
    assertions no later step of the call raises it. *)
Theorem alg_01_assertion_error_iff :
  forall stock_series bond_series stock_val bond_val decr_perc sell_perc
         monthly_addn,
    Alg01.alg_01 stock_series bond_series stock_val bond_val decr_perc
      sell_perc monthly_addn = Raise AssertionError
    <->
    ((exists x, (In x decr_perc \/ In x sell_perc) /\ ~ (0 < x /\ x < 100)) \/
     length decr_perc <> length sell_perc \/
     length stock_series <> length bond_series).
Proof.
  intros S B sv bv dp sp addn. split.
  - intro H.
    destruct (all_valid dp) eqn:Hd;
      [| destruct (all_valid_false _ Hd) as [x [Hin Hx]];
         left; exists x; auto].
    destruct (all_valid sp) eqn:Hs;
      [| destruct (all_valid_false _ Hs) as [x [Hin Hx]];
         left; exists x; auto].
    destruct (Nat.eq_dec (length dp) (length sp)) as [Hl | Hl]; [| auto].
    destruct (Nat.eq_dec (length S) (length B)) as [Hz | Hz]; [| auto].
    exfalso. unfold Alg01.alg_01 in H.
    destruct S as [| a S'] .
    + unfold Alg01.run in H.
      rewrite (init_01_valid _ _ _ _ _ _ Hd Hs Hl Hz) in H. discriminate.
    + destruct (run_01_outcome (a :: S') B sv bv dp sp addn Hd Hs Hl Hz
                  ltac:(discriminate)) as [[st Hst] | Hr].
      * rewrite Hst in H. cbn [bind] in H. rewrite port_change_outcome in H.
        destruct (_ && _) in H; discriminate.
      * rewrite Hr in H. discriminate.
  - intro H. unfold Alg01.alg_01, Alg01.run.
    rewrite (init_01_invalid S B sv bv dp sp H). reflexivity.
Qed.

(** X2.  With parameters that pass the assertions, [alg_01] raises on an
    empty series (the lookup of the oldest price fails); on a series of one
    price it runs no iteration and returns a change of 0, unless the initial
    portfolio value is zero, where the division raises; on two or more
    prices it either returns or raises IndexError from the ladder, and
    nothing else. *)
Theorem alg_01_outcome_valid_parameters :
  forall stock_series bond_series stock_val bond_val decr_perc sell_perc
         monthly_addn,
    all_valid decr_perc = true -> all_valid sell_perc = true ->
    length decr_perc = length sell_perc ->
    length stock_series = length bond_series ->
    let call :=
      Alg01.alg_01 stock_series bond_series stock_val bond_val decr_perc
        sell_perc monthly_addn in
    (call = Raise LookupError <-> stock_series = []) /\
    (call = Raise ZeroDivisionError <->
     length stock_series = 1%nat /\ stock_val + bond_val == 0) /\
    (length stock_series = 1%nat -> ~ stock_val + bond_val == 0 ->
     exists r, call = Ok r /\ r == 0) /\
    ((2 <= length stock_series)%nat ->
     (exists r, call = Ok r) \/ call = Raise IndexError).
Proof.
  intros S B sv bv dp sp addn Hd Hs Hl Hz call.
  assert (Hempty : S = [] -> call = Raise LookupError).
  { intros ->. unfold call, Alg01.alg_01, Alg01.run.
    rewrite (init_01_valid _ _ _ _ _ _ Hd Hs Hl Hz). reflexivity. }
  assert (Hone : length S = 1%nat ->
                 call = Alg01.port_change 1 (sv + bv)
                          (Alg01.mkState sv bv (map (fun x => round64 (x / 100)) dp)
                             (map (fun x => round64 (x / 100)) sp)
                             (nth 0 S 0) (nth 0 S 0) 0)).
  { intro H1. unfold call, Alg01.alg_01, Alg01.run.
    rewrite (init_01_valid _ _ _ _ _ _ Hd Hs Hl Hz).
    rewrite oldest_nonempty by (intros ->; discriminate).
    rewrite H1. reflexivity. }
  assert (Hmany : (2 <= length S)%nat ->
                  (exists r, call = Ok r) \/ call = Raise IndexError).
  { intro H2. unfold call, Alg01.alg_01.
    destruct (run_01_outcome S B sv bv dp sp addn Hd Hs Hl Hz)
      as [[st Hst] | Hr].
    - intros ->. simpl in H2. lia.
    - rewrite Hst. cbn [bind]. rewrite port_change_outcome.
      replace (length S - 1 =? 0)%nat with false
        by (symmetry; apply Nat.eqb_neq; lia).
      left. eexists. reflexivity.
    - rewrite Hr. right. reflexivity. }
  assert (Hcases : S = [] \/ length S = 1%nat \/ (2 <= length S)%nat).
  { destruct S as [| a [| b S']]; cbn [length]; auto. right. right. lia. }
  split; [| split; [| split]].
  - split; [| exact Hempty]. intro H.
    destruct Hcases as [He | [H1 | H2]]; [exact He | |].
    + rewrite (Hone H1), port_change_outcome in H.
      destruct (_ && _) in H; discriminate.
    + destruct (Hmany H2) as [[r Hr] | Hr]; rewrite Hr in H; discriminate.
  - split.
    + intro H. destruct Hcases as [He | [H1 | H2]].
      * rewrite (Hempty He) in H. discriminate.
      * split; [exact H1 |].
        rewrite (Hone H1), port_change_outcome in H. cbn [Nat.sub Nat.eqb] in H.
        destruct (Qeq_bool (sv + bv) 0) eqn:E; [| discriminate].
        apply Qeq_bool_iff. exact E.
      * destruct (Hmany H2) as [[r Hr] | Hr]; rewrite Hr in H; discriminate.
    + intros [H1 H0]. rewrite (Hone H1), port_change_outcome.
      cbn [Nat.sub Nat.eqb]. apply Qeq_bool_iff in H0. rewrite H0. reflexivity.
  - intros H1 Hnz. rewrite (Hone H1), port_change_outcome.
    cbn [Nat.sub Nat.eqb].
    destruct (Qeq_bool (sv + bv) 0) eqn:E.
    + apply Qeq_bool_iff in E. contradiction.
    + eexists. split; [reflexivity |]. cbn [Alg01.stock_val Alg01.bond_val andb].
      field. exact Hnz.
  - exact Hmany.
Qed.

Lemma alg_01_outcome_valid_parameters_witness :
  (exists r, Alg01.alg_01 [100] [50] 600 400 [5] [10] 0 = Ok r /\ r == 0) /\
  Alg01.alg_01 [100] [50] 0 0 [5] [10] 0 = Raise ZeroDivisionError /\
  Alg01.alg_01 [] [] 600 400 [5] [10] 0 = Raise LookupError.
Proof.
  split; [| split].
  - apply (alg_01_outcome_valid_parameters [100] [50] 600 400 [5] [10] 0);
      try reflexivity.
    vm_compute. discriminate.
  - apply (alg_01_outcome_valid_parameters [100] [50] 0 0 [5] [10] 0);
      try reflexivity.
    split; reflexivity.
  - apply (alg_01_outcome_valid_parameters [] [] 600 400 [5] [10] 0);
      reflexivity.
Defined.

Lemma init_02_valid series margin_rate margin decrease_percentages
  decrease_buys increase_percentages increase_sells :
  all_valid decrease_percentages = true -> all_valid decrease_buys = true ->
  all_valid increase_percentages = true -> all_valid increase_sells = true ->
  Alg02.init series margin_rate margin decrease_percentages decrease_buys
    increase_percentages increase_sells
  = (mx <- oldest series ;;
     Ok (Alg02.mkState margin 0 decrease_percentages mx mx 0 0)).
Proof.
  intros H1 H2 H3 H4. unfold Alg02.init.
  rewrite H1, H2, H3, H4. cbn [py_assert bind].
  destruct (oldest series); reflexivity.
Qed.

Lemma run_02_outcome series margin_rate margin decrease_percentages
  decrease_buys increase_percentages increase_sells :
  all_valid decrease_percentages = true -> all_valid decrease_buys = true ->
  all_valid increase_percentages = true -> all_valid increase_sells = true ->
  series <> [] ->
  (exists st,
      Alg02.run series margin_rate margin decrease_percentages
        decrease_buys increase_percentages increase_sells = Ok st) \/
  Alg02.run series margin_rate margin decrease_percentages
    decrease_buys increase_percentages increase_sells = Raise IndexError.
Proof.
  intros H1 H2 H3 H4 Hne. unfold Alg02.run.
  rewrite (init_02_valid _ _ _ _ _ _ _ H1 H2 H3 H4).
  rewrite (oldest_nonempty _ Hne). cbn [bind].
  match goal with
  | |- context [for_range ?b ?n ?s] =>
      destruct (for_range b n s) as [st | e] eqn:E
  end; [left; eauto | right].
  f_equal.
  apply (for_range_raise _ (fun e => e = IndexError)
           (length series - 1)) in E; [exact E | | lia].
  intros i st e' Hi. apply body_02_raise. lia.
Qed.

(** X3.  [alg_02] raises the exception of a failed assertion exactly when a
    value of one of its four lists is outside (0,100); the lengths of the
    lists are not compared.  With four valid lists it raises on an empty
    series (the lookup of the oldest price fails), and on any other series it
    either returns [None] or raises IndexError from the ladder. *)
Theorem alg_02_outcome :
  forall series margin_rate margin decrease_percentages decrease_buys
         increase_percentages increase_sells,
    let call :=
      Alg02.alg_02 series margin_rate margin decrease_percentages
        decrease_buys increase_percentages increase_sells in
    let valid :=
      all_valid decrease_percentages && all_valid decrease_buys &&
      all_valid increase_percentages && all_valid increase_sells in
    (call = Raise AssertionError <->
     exists x,
       (In x decrease_percentages \/ In x decrease_buys \/
        In x increase_percentages \/ In x increase_sells) /\
       ~ (0 < x /\ x < 100)) /\
    (valid = true -> (call = Raise LookupError <-> series = [])) /\
    (valid = true -> series <> [] ->
     call = Ok tt \/ call = Raise IndexError).
Proof.
  intros S r mg dp db ip ins call valid.
  assert (Hv : valid = true ->
               (S = [] -> call = Raise LookupError) /\
               (S <> [] -> call = Ok tt \/ call = Raise IndexError)).
  { unfold valid. rewrite !andb_true_iff. intros [[[H1 H2] H3] H4]. split.
    - intros ->. unfold call, Alg02.alg_02, Alg02.run.
      rewrite (init_02_valid _ _ _ _ _ _ _ H1 H2 H3 H4). reflexivity.
    - intro Hne. unfold call, Alg02.alg_02.
      destruct (run_02_outcome S r mg dp db ip ins H1 H2 H3 H4 Hne)
        as [[st Hst] | Hr].
      + rewrite Hst. left. reflexivity.
      + rewrite Hr. right. reflexivity. }
  split; [| split].
  - split.
    + intro H. destruct valid eqn:E.
      * exfalso. destruct (Hv eq_refl) as [He Hn].
        destruct S as [| a S'].
        -- rewrite (He eq_refl) in H. discriminate.
        -- destruct (Hn ltac:(discriminate)) as [Hr | Hr];
             rewrite Hr in H; discriminate.
      * unfold valid in E. rewrite !andb_false_iff in E.
        destruct E as [[[E | E] | E] | E];
          destruct (all_valid_false _ E) as [x [Hin Hx]];
          exists x; auto.
    + intros [x [Hin Hx]]. unfold call, Alg02.alg_02, Alg02.run, Alg02.init.
      destruct (all_valid dp) eqn:E1; [| reflexivity].
      destruct (all_valid db) eqn:E2; [| reflexivity].
      destruct (all_valid ip) eqn:E3; [| reflexivity].
      destruct (all_valid ins) eqn:E4; [| reflexivity].
      exfalso. apply Hx.
      destruct Hin as [Hin | [Hin | [Hin | Hin]]];
        [ exact (proj1 (all_valid_spec dp) E1 x Hin)
        | exact (proj1 (all_valid_spec db) E2 x Hin)
        | exact (proj1 (all_valid_spec ip) E3 x Hin)
        | exact (proj1 (all_valid_spec ins) E4 x Hin) ].
  - intro Hvalid. destruct (Hv Hvalid) as [He Hn]. split; [| exact He].
    intro H. destruct S as [| a S']; [reflexivity |].
    destruct (Hn ltac:(discriminate)) as [Hr | Hr];
      rewrite Hr in H; discriminate.
  - intro Hvalid. exact (proj2 (Hv Hvalid)).
Qed.

(** Lists of different lengths pass; an empty series raises. *)
Lemma alg_02_outcome_witness :
  (Alg02.alg_02 [] 3 1000 [5; 10] [10] [] [20; 30; 40] = Raise LookupError
   <-> @nil Q = []) /\
  (Alg02.alg_02 [90; 100] 3 1000 [5; 10] [10] [] [20; 30; 40] = Ok tt \/
   Alg02.alg_02 [90; 100] 3 1000 [5; 10] [10] [] [20; 30; 40]
   = Raise IndexError).
Proof.
  split.
  - apply (alg_02_outcome [] 3 1000 [5; 10] [10] [] [20; 30; 40]).
    reflexivity.
  - apply (alg_02_outcome [90; 100] 3 1000 [5; 10] [10] [] [20; 30; 40]).
    + reflexivity.
    + discriminate.
Defined.

(** ** What a ladder fires *)

Lemma while_decrease_01_prefix cd :
  forall fired d0 rest sp stock_val bond_val,
    Forall (fun d => d < cd) fired -> cd <= d0 ->
    (length fired <= length sp)%nat ->
    Alg01.while_decrease cd (fired ++ d0 :: rest) sp stock_val bond_val
    = Ok (d0 :: rest, skipn (length fired) sp,
          fst (sell_all (firstn (length fired) sp) stock_val bond_val),
          snd (sell_all (firstn (length fired) sp) stock_val bond_val)).
Proof.
  induction fired as [| d fired IH]; intros d0 rest sp sv bv Hf Hd0 Hlen.
  - cbn [app length skipn firstn sell_all fst snd].
    apply while_decrease_01_holds. exact Hd0.
  - inversion Hf as [| ? ? Hd Hf']; subst.
    destruct sp as [| p sp]; [cbn [length] in Hlen; lia |].
    cbn [app]. rewrite while_decrease_01_fires by exact Hd.
    cbn [length skipn firstn sell_all].
    apply IH; [exact Hf' | exact Hd0 | cbn [length] in Hlen; lia].
Qed.

Lemma while_decrease_01_all_exceeded cd :
  forall decr_perc sell_perc stock_val bond_val,
    Forall (fun d => d < cd) decr_perc ->
    Alg01.while_decrease cd decr_perc sell_perc stock_val bond_val
    = Raise IndexError.
Proof.
  induction decr_perc as [| d ds IH]; intros sp sv bv Hf; [reflexivity |].
  inversion Hf as [| ? ? Hd Hf']; subst.
  destruct sp as [| p sp].
  - cbn [Alg01.while_decrease]. apply Qltb_lt in Hd. rewrite Hd. reflexivity.
  - rewrite while_decrease_01_fires by exact Hd. apply IH. exact Hf'.
Qed.

(** X4.  On a new minimum the ladder of [alg_01] fires the leading triggers
    that the drawdown exceeds and stops at the first one it does not exceed,
    whatever comes after it (triggers further down that are exceeded are not
    fired): it returns that trigger and the ones behind it, the fractions at
    the same positions, and the valuations after the fractions of the fired
    entries have been sold in order.  When the drawdown exceeds every
    trigger the ladder raises IndexError. *)
Theorem ladder_01_fires_leading_exceeded_triggers :
  forall cd fired sell_perc stock_val bond_val,
    Forall (fun d => d < cd) fired ->
    (length fired <= length sell_perc)%nat ->
    (forall d0 rest,
        cd <= d0 ->
        Alg01.while_decrease cd (fired ++ d0 :: rest) sell_perc
          stock_val bond_val
        = Ok (d0 :: rest, skipn (length fired) sell_perc,
              fst (sell_all (firstn (length fired) sell_perc)
                     stock_val bond_val),
              snd (sell_all (firstn (length fired) sell_perc)
                     stock_val bond_val))) /\
    Alg01.while_decrease cd fired sell_perc stock_val bond_val
    = Raise IndexError.
Proof.
  intros cd fired sp sv bv Hf Hlen. split.
  - intros d0 rest Hd0. apply while_decrease_01_prefix; assumption.
  - apply while_decrease_01_all_exceeded. exact Hf.
Qed.

(** A drawdown of 30% against the triggers 10%, 20%, 50%, 25%: the first two
    fire, the third stops the ladder and the fourth, though exceeded, is not
    fired. *)
Lemma ladder_01_fires_leading_exceeded_triggers_witness :
  Alg01.while_decrease (3 # 10) [1 # 10; 1 # 5; 1 # 2; 1 # 4]
    [1 # 10; 1 # 10; 1 # 10; 1 # 10] 1000 1000
  = Ok ([1 # 2; 1 # 4], [1 # 10; 1 # 10],
        fst (sell_all [1 # 10; 1 # 10] 1000 1000),
        snd (sell_all [1 # 10; 1 # 10] 1000 1000)).
Proof.
  apply (proj1 (ladder_01_fires_leading_exceeded_triggers
                  (3 # 10) [1 # 10; 1 # 5] [1 # 10; 1 # 10; 1 # 10; 1 # 10]
                  1000 1000
                  ltac:(repeat constructor)
                  ltac:(cbn [length]; lia))
           (1 # 2) [1 # 4]).
  vm_compute. discriminate.
Defined.

Lemma while_decrease_02_prefix cd b bs :
  forall fired d0 rest m_stock_val margin,
    Forall (fun d => d < cd) fired -> cd <= d0 ->
    Alg02.while_decrease cd (fired ++ d0 :: rest) (b :: bs)
      m_stock_val margin
    = Ok (d0 :: rest,
          fst (draw_all (length fired) b m_stock_val margin),
          snd (draw_all (length fired) b m_stock_val margin)).
Proof.
  induction fired as [| d fired IH]; intros d0 rest m mg Hf Hd0.
  - cbn [app length draw_all fst snd].
    apply while_decrease_02_holds. exact Hd0.
  - inversion Hf as [| ? ? Hd Hf']; subst.
    cbn [app]. rewrite while_decrease_02_fires by exact Hd.
    cbn [length draw_all]. apply IH; assumption.
Qed.

Lemma while_decrease_02_all_exceeded cd decrease_buys :
  forall decrease_percentages m_stock_val margin,
    Forall (fun d => d < cd) decrease_percentages ->
    Alg02.while_decrease cd decrease_percentages decrease_buys
      m_stock_val margin = Raise IndexError.
Proof.
  induction decrease_percentages as [| d ds IH]; intros m mg Hf;
    [reflexivity |].
  inversion Hf as [| ? ? Hd Hf']; subst.
  destruct decrease_buys as [| b bs].
  - cbn [Alg02.while_decrease]. apply Qltb_lt in Hd. rewrite Hd. reflexivity.
  - rewrite while_decrease_02_fires by exact Hd. apply IH. exact Hf'.
Qed.

(** X5.  On a new minimum the ladder of [alg_02] fires the leading triggers
    that the drawdown exceeds and stops at the first one it does not exceed.
    Every firing draws the first fraction of [decrease_buys]: the values
    returned are the ones after as many draws of that one fraction as
    triggers were fired.  The ladder raises IndexError when the drawdown
    exceeds every trigger, and also when it exceeds the first trigger and
    [decrease_buys] is empty. *)
Theorem ladder_02_fires_leading_exceeded_triggers :
  forall cd fired m_stock_val margin,
    Forall (fun d => d < cd) fired ->
    (forall b bs d0 rest,
        cd <= d0 ->
        Alg02.while_decrease cd (fired ++ d0 :: rest) (b :: bs)
          m_stock_val margin
        = Ok (d0 :: rest,
              fst (draw_all (length fired) b m_stock_val margin),
              snd (draw_all (length fired) b m_stock_val margin))) /\
    (forall decrease_buys,
        Alg02.while_decrease cd fired decrease_buys m_stock_val margin
        = Raise IndexError) /\
    (forall rest, fired <> [] ->
        Alg02.while_decrease cd (fired ++ rest) [] m_stock_val margin
        = Raise IndexError).
Proof.
  intros cd fired m mg Hf. split; [| split].
  - intros b bs d0 rest Hd0. apply while_decrease_02_prefix; assumption.
  - intro db. apply while_decrease_02_all_exceeded. exact Hf.
  - intros rest Hne. destruct fired as [| d fired]; [congruence |].
    inversion Hf as [| ? ? Hd _]; subst.
    cbn [app Alg02.while_decrease]. apply Qltb_lt in Hd. rewrite Hd.
    reflexivity.
Qed.

(** The ladder of the run of C7: two firings, both with the fraction 10. *)
Lemma ladder_02_fires_leading_exceeded_triggers_witness :
  Alg02.while_decrease (6 # 10) [1 # 10; 1 # 5; 9 # 10] [10; 50; 20] 0 1000
  = Ok ([9 # 10], fst (draw_all 2 10 0 1000), snd (draw_all 2 10 0 1000)).
Proof.
  apply (proj1 (ladder_02_fires_leading_exceeded_triggers
                  (6 # 10) [1 # 10; 1 # 5] 0 1000
                  ltac:(repeat constructor))
           10 [50; 20] (9 # 10) []).
  vm_compute. discriminate.
Defined.

(** X6.  Firing is monotone in the drawdown, in both engines: when the ladder
    returns for a drawdown, it also returns for every smaller drawdown, and
    the triggers it then leaves end with the ones left for the larger
    drawdown, so the smaller drawdown fires no more entries. *)
Theorem ladder_firing_is_monotone :
  forall cd cd',
    cd <= cd' ->
    (forall decr_perc sell_perc stock_val bond_val d2 s2 sv2 bv2,
        Alg01.while_decrease cd' decr_perc sell_perc stock_val bond_val
        = Ok (d2, s2, sv2, bv2) ->
        exists d1 s1 sv1 bv1 more,
          Alg01.while_decrease cd decr_perc sell_perc stock_val bond_val
          = Ok (d1, s1, sv1, bv1) /\ d1 = more ++ d2) /\
    (forall decrease_percentages decrease_buys m_stock_val margin d2 m2 mg2,
        Alg02.while_decrease cd' decrease_percentages decrease_buys
          m_stock_val margin = Ok (d2, m2, mg2) ->
        exists d1 m1 mg1 more,
          Alg02.while_decrease cd decrease_percentages decrease_buys
            m_stock_val margin = Ok (d1, m1, mg1) /\ d1 = more ++ d2).
Proof.
  intros cd cd' Hle. split.
  - induction decr_perc as [| d ds IH];
      intros sp sv bv d2 s2 sv2 bv2 H; [discriminate |].
    cbn [Alg01.while_decrease] in H |- *.
    destruct (Qltb d cd') eqn:E'.
    + destruct sp as [| p sp]; [discriminate |].
      destruct (Qltb d cd) eqn:E.
      * apply IH in H. exact H.
      * apply while_decrease_01_suffix in H. destruct H as [fired [-> _]].
        exists (d :: fired ++ d2), (p :: sp), sv, bv, (d :: fired).
        split; reflexivity.
    + inversion H; subst.
      assert (E : Qltb d cd = false).
      { apply Qltb_ge. apply Qltb_ge in E'. eapply Qle_trans; eauto. }
      rewrite E. exists (d :: ds), s2, sv2, bv2, []. split; reflexivity.
  - induction decrease_percentages as [| d ds IH];
      intros db m mg d2 m2 mg2 H; [discriminate |].
    cbn [Alg02.while_decrease] in H |- *.
    destruct (Qltb d cd') eqn:E'.
    + destruct db as [| b bs]; [discriminate |].
      destruct (Qltb d cd) eqn:E.
      * apply IH in H. exact H.
      * apply while_decrease_02_suffix in H. destruct H as [fired [-> _]].
        exists (d :: fired ++ d2), m, mg, (d :: fired).
        split; reflexivity.
    + inversion H; subst.
      assert (E : Qltb d cd = false).
      { apply Qltb_ge. apply Qltb_ge in E'. eapply Qle_trans; eauto. }
      rewrite E. exists (d :: ds), m2, mg2, []. split; reflexivity.
Qed.

(** A drawdown of 30% fires two of the triggers 10%, 20%, 50%, so a drawdown
    of 15% returns as well, with the triggers left for 30% at the end of the
    ones it leaves. *)
Lemma ladder_firing_is_monotone_witness :
  exists d1 s1 sv1 bv1 more,
    Alg01.while_decrease (15 # 100) [1 # 10; 1 # 5; 1 # 2]
      [1 # 10; 1 # 10; 1 # 10] 1000 1000 = Ok (d1, s1, sv1, bv1) /\
    d1 = more ++ [1 # 2].
Proof.
  apply (proj1 (ladder_firing_is_monotone (15 # 100) (3 # 10)
                  ltac:(vm_compute; discriminate))
           [1 # 10; 1 # 5; 1 # 2] [1 # 10; 1 # 10; 1 # 10] 1000 1000
           [1 # 2] [1 # 10]
           (fst (sell_all [1 # 10; 1 # 10] 1000 1000))
           (snd (sell_all [1 # 10; 1 # 10] 1000 1000))).
  reflexivity.
Defined.

(** ** Valuations of [alg_01] *)

Lemma while_decrease_01_total cd :
  forall decr_perc sell_perc stock_val bond_val d' s' sv' bv',
    Alg01.while_decrease cd decr_perc sell_perc stock_val bond_val
    = Ok (d', s', sv', bv') ->
    sv' + bv' == stock_val + bond_val.
Proof.
  induction decr_perc as [| d ds IH]; intros sp sv bv d' s' sv' bv' H;
    [discriminate |].
  cbn [Alg01.while_decrease] in H. destruct (Qltb d cd).
  - destruct sp as [| p sp]; [discriminate |].
    apply IH in H. rewrite H. ring.
  - inversion H; subst. reflexivity.
Qed.

(** X7.  The ladder of [alg_01] only moves value from bonds to stock: at the
    end of every completed iteration the sum of the two valuations is the sum
    they had after the price-ratio update and the monthly addition of that
    iteration, however many entries fired. *)
Theorem alg_01_ladder_keeps_total_value :
  forall stock_series bond_series monthly_addn i st st',
    Alg01.body stock_series bond_series monthly_addn i st = Ok st' ->
    exists sv bv,
      Alg01.revalue stock_series bond_series monthly_addn i
        (Alg01.stock_val st) (Alg01.bond_val st) = Ok (sv, bv) /\
      Alg01.stock_val st' + Alg01.bond_val st' == sv + bv.
Proof.
  intros S B addn i st st' H. unfold Alg01.body in H.
  apply bind_Ok_inv in H. destruct H as [[sv bv] [Hv H]].
  exists sv, bv. split; [exact Hv |].
  apply bind_Ok_inv in H. destruct H as [si [_ H]].
  destruct (Qltb si (Alg01.min st)).
  - apply bind_Ok_inv in H. destruct H as [[[[d s] sv'] bv'] [Hw H]].
    inversion H; subst; cbn [Alg01.stock_val Alg01.bond_val].
    eapply while_decrease_01_total. exact Hw.
  - inversion H; subst; cbn [Alg01.stock_val Alg01.bond_val]. reflexivity.
Qed.

(** The iteration of Scenario A with a spare entry: 900 + 1000 before the
    sale, 1000 + 900 after it. *)
Lemma alg_01_ladder_keeps_total_value_witness :
  exists st',
    Alg01.body [100; 90; 100] [50; 50; 50] 0 1
      (Alg01.mkState 1000 1000 [5 / 100; 50 / 100] [10 / 100; 20 / 100]
         100 100 0) = Ok st' /\
    exists sv bv,
      Alg01.revalue [100; 90; 100] [50; 50; 50] 0 1 1000 1000
      = Ok (sv, bv) /\
      Alg01.stock_val st' + Alg01.bond_val st' == sv + bv.
Proof.
  destruct (Alg01.body [100; 90; 100] [50; 50; 50] 0 1
              (Alg01.mkState 1000 1000 [5 / 100; 50 / 100]
                 [10 / 100; 20 / 100] 100 100 0)) as [st' | e] eqn:E.
  - exists st'. split; [reflexivity |].
    apply (alg_01_ladder_keeps_total_value [100; 90; 100] [50; 50; 50] 0
             1%nat _ st' E).
  - exfalso. vm_compute in E. discriminate.
Defined.

(** Invariants of the loop. *)
Lemma for_range_invariant {St : Type} (body : nat -> St -> result St)
  (P : St -> Prop) :
  (forall i st st', P st -> body i st = Ok st' -> P st') ->
  forall n st st', P st -> for_range body n st = Ok st' -> P st'.
Proof.
  intro Hb. induction n as [| i IH]; intros st st' Hst H.
  - inversion H; subst. exact Hst.
  - cbn [for_range] in H. apply bind_Ok_inv in H.
    destruct H as [st1 [Hb1 H]].
    apply (IH st1 st'); [eapply Hb; eauto | exact H].
Qed.

Lemma trace_invariant {St : Type} (body : nat -> St -> result St)
  (P : St -> Prop) :
  (forall i st st', P st -> body i st = Ok st' -> P st') ->
  forall n st, P st -> Forall P (trace body n st).
Proof.
  intro Hb. induction n as [| i IH]; intros st Hst; cbn [trace];
    [constructor |].
  destruct (body i st) as [st' | e] eqn:E; [| constructor].
  assert (Hst' : P st') by (eapply Hb; eauto).
  constructor; [exact Hst' | apply IH; exact Hst'].
Qed.

(** A fraction of the bonds: a value between 0 and 1. *)
Definition fraction (p : Q) : Prop := 0 <= p /\ p <= 1.

Lemma valid_fractions (l : list Q) :
  all_valid l = true -> Forall fraction (map (fun x => round64 (x / 100)) l).
Proof.
  intro H. apply Forall_forall. intros p Hp.
  apply in_map_iff in Hp. destruct Hp as [x [<- Hx]].
  destruct (proj1 (all_valid_spec l) H x Hx) as [H0 H1].
  unfold fraction. apply round64_unit.
  - apply Qle_shift_div_l; [reflexivity | lra].
  - apply Qle_shift_div_r; [reflexivity | lra].
Qed.

Lemma while_decrease_01_nonneg cd :
  forall decr_perc sell_perc stock_val bond_val d' s' sv' bv',
    Forall fraction sell_perc -> 0 <= stock_val -> 0 <= bond_val ->
    Alg01.while_decrease cd decr_perc sell_perc stock_val bond_val
    = Ok (d', s', sv', bv') ->
    Forall fraction s' /\ 0 <= sv' /\ 0 <= bv'.
Proof.
  induction decr_perc as [| d ds IH];
    intros sp sv bv d' s' sv' bv' Hf Hsv Hbv H; [discriminate |].
  cbn [Alg01.while_decrease] in H. destruct (Qltb d cd).
  - destruct sp as [| p sp]; [discriminate |].
    inversion Hf as [| ? ? [Hp0 Hp1] Hf']; subst.
    assert (Hsell : 0 <= bv * p)
      by (apply Qmult_le_0_compat; assumption).
    assert (Hkeep : 0 <= bv - bv * p).
    { setoid_replace (bv - bv * p) with (bv * (1 - p)) by ring.
      apply Qmult_le_0_compat; [exact Hbv | lra]. }
    eapply IH; [exact Hf' | | exact Hkeep | exact H]. lra.
  - inversion H; subst. auto.
Qed.

Lemma init_01_Ok_inv stock_series bond_series stock_val bond_val
  decr_perc sell_perc st :
  Alg01.init stock_series bond_series stock_val bond_val decr_perc sell_perc
  = Ok st ->
  all_valid decr_perc = true /\ all_valid sell_perc = true /\
  length decr_perc = length sell_perc /\
  length stock_series = length bond_series /\
  exists mx,
    oldest stock_series = Ok mx /\
    st = Alg01.mkState stock_val bond_val
           (map (fun x => round64 (x / 100)) decr_perc)
           (map (fun x => round64 (x / 100)) sell_perc) mx mx 0.
Proof.
  unfold Alg01.init. intro H.
  destruct (all_valid decr_perc); [| discriminate].
  destruct (all_valid sell_perc); [| discriminate].
  destruct (length decr_perc =? length sell_perc)%nat eqn:El; [| discriminate].
  destruct (length stock_series =? length bond_series)%nat eqn:Ez;
    [| discriminate].
  cbn [py_assert bind] in H.
  apply Nat.eqb_eq in El. apply Nat.eqb_eq in Ez.
  destruct (oldest stock_series) as [mx |]; [| discriminate].
  cbn [bind] in H. inversion H; subst.
  repeat split; try assumption. exists mx. auto.
Qed.

Lemma ratio_nonneg (a b : Q) : 0 < a -> 0 < b -> 0 <= a / b.
Proof.
  intros Ha Hb. apply Qle_shift_div_l; [exact Hb | lra].
Qed.

Lemma revalue_nonneg stock_series bond_series monthly_addn i sv bv sv' bv' :
  (forall x, In x stock_series -> 0 < x) ->
  (forall x, In x bond_series -> 0 < x) ->
  0 <= monthly_addn -> 0 <= sv -> 0 <= bv ->
  Alg01.revalue stock_series bond_series monthly_addn i sv bv
  = Ok (sv', bv') ->
  0 <= sv' /\ 0 <= bv'.
Proof.
  intros HS HB Ha Hsv Hbv H. unfold Alg01.revalue in H.
  apply bind_Ok_inv in H. destruct H as [si [Hsi H]].
  apply bind_Ok_inv in H. destruct H as [si1 [Hsi1 H]].
  apply bind_Ok_inv in H. destruct H as [bi [Hbi H]].
  apply bind_Ok_inv in H. destruct H as [bi1 [Hbi1 H]].
  pose proof (ratio_nonneg si si1 (HS _ (iloc_In _ _ _ Hsi))
                (HS _ (iloc_In _ _ _ Hsi1))) as Hrs.
  pose proof (ratio_nonneg bi bi1 (HB _ (iloc_In _ _ _ Hbi))
                (HB _ (iloc_In _ _ _ Hbi1))) as Hrb.
  pose proof (Qmult_le_0_compat _ _ Hsv Hrs) as H1.
  pose proof (Qmult_le_0_compat _ _ Hbv Hrb) as H2.
  destruct (i mod 25 =? 0)%nat in H;
    injection H as <- <-; split; lra.
Qed.

Lemma body_01_nonneg stock_series bond_series monthly_addn i st st' :
  (forall x, In x stock_series -> 0 < x) ->
  (forall x, In x bond_series -> 0 < x) ->
  0 <= monthly_addn ->
  (0 <= Alg01.stock_val st /\ 0 <= Alg01.bond_val st /\
   Forall fraction (Alg01.sell_perc st)) ->
  Alg01.body stock_series bond_series monthly_addn i st = Ok st' ->
  0 <= Alg01.stock_val st' /\ 0 <= Alg01.bond_val st' /\
  Forall fraction (Alg01.sell_perc st').
Proof.
  intros HS HB Ha [Hsv [Hbv Hf]] H. unfold Alg01.body in H.
  apply bind_Ok_inv in H. destruct H as [[sv bv] [Hv H]].
  destruct (revalue_nonneg _ _ _ _ _ _ _ _ HS HB Ha Hsv Hbv Hv) as [Hsv' Hbv'].
  apply bind_Ok_inv in H. destruct H as [si [_ H]].
  destruct (Qltb si (Alg01.min st)).
  - apply bind_Ok_inv in H. destruct H as [[[[d s] sv'] bv'] [Hw H]].
    destruct (while_decrease_01_nonneg _ _ _ _ _ _ _ _ _ Hf Hsv' Hbv' Hw)
      as [Hf' [H1 H2]].
    inversion H; subst; cbn [Alg01.stock_val Alg01.bond_val Alg01.sell_perc].
    auto.
  - inversion H; subst; cbn [Alg01.stock_val Alg01.bond_val Alg01.sell_perc].
    auto.
Qed.

(** X8.  When the initial valuations and the monthly addition are not
    negative and all prices are positive, neither valuation is negative in
    any state a call of [alg_01] goes through (a firing sells a fraction
    between 0% and 100% of the bonds, never more than there is); and a call
    that returns, from an initial portfolio of positive value, returns a
    change of at least -1, that is, of at least -100%. *)
Theorem alg_01_valuations_stay_nonnegative :
  forall stock_series bond_series stock_val bond_val decr_perc sell_perc
         monthly_addn,
    0 <= stock_val -> 0 <= bond_val -> 0 <= monthly_addn ->
    (forall x, In x stock_series -> 0 < x) ->
    (forall x, In x bond_series -> 0 < x) ->
    (forall st,
        In st (Alg01.states stock_series bond_series stock_val bond_val
                 decr_perc sell_perc monthly_addn) ->
        0 <= Alg01.stock_val st /\ 0 <= Alg01.bond_val st) /\
    (forall r,
        Alg01.alg_01 stock_series bond_series stock_val bond_val decr_perc
          sell_perc monthly_addn = Ok r ->
        0 < stock_val + bond_val -> - (1) <= r).
Proof.
  intros S B sv bv dp sp addn Hsv Hbv Ha HS HB.
  set (P := fun st => 0 <= Alg01.stock_val st /\ 0 <= Alg01.bond_val st /\
                      Forall fraction (Alg01.sell_perc st)).
  assert (Hstep : forall i st st',
             P st -> Alg01.body S B addn i st = Ok st' -> P st').
  { intros i st st' Hst H.
    exact (body_01_nonneg S B addn i st st' HS HB Ha Hst H). }
  assert (Hinit : forall st0, Alg01.init S B sv bv dp sp = Ok st0 -> P st0).
  { intros st0 Hi.
    destruct (init_01_Ok_inv _ _ _ _ _ _ _ Hi)
      as [_ [Hvs [_ [_ [mx [_ ->]]]]]].
    unfold P. cbn [Alg01.stock_val Alg01.bond_val Alg01.sell_perc].
    split; [exact Hsv | split; [exact Hbv | apply valid_fractions, Hvs]]. }
  split.
  - intros st Hin. unfold Alg01.states in Hin.
    destruct (Alg01.init S B sv bv dp sp) as [st0 | e] eqn:Hi; [| destruct Hin].
    pose proof (Hinit st0 eq_refl) as H0.
    destruct Hin as [<- | Hin].
    + destruct H0 as [H1 [H2 _]]. auto.
    + pose proof (trace_invariant _ P Hstep (length S - 1) st0 H0) as HF.
      rewrite Forall_forall in HF. destruct (HF st Hin) as [H1 [H2 _]]. auto.
  - intros r H Hpos. unfold Alg01.alg_01, Alg01.run in H.
    apply bind_Ok_inv in H. destruct H as [st [Hrun H]].
    apply bind_Ok_inv in Hrun. destruct Hrun as [st0 [Hi Hrun]].
    pose proof (for_range_invariant _ P Hstep _ _ _ (Hinit st0 Hi) Hrun)
      as [H1 [H2 _]].
    rewrite port_change_outcome in H.
    destruct (_ && _) in H; [discriminate |]. inversion H; subst r.
    assert (Hq : 0 <= (Alg01.stock_val st + Alg01.bond_val st) / (sv + bv)).
    { apply Qle_shift_div_l; [exact Hpos | lra]. }
    lra.
Qed.

(** Scenario A with a spare entry. *)
Lemma alg_01_valuations_stay_nonnegative_witness :
  exists r,
    Alg01.alg_01 [100; 90; 100] [50; 50; 50] 1000 1000 [5; 50] [10; 20] 0
    = Ok r /\ - (1) <= r.
Proof.
  assert (HS : forall x, In x [100; 90; 100] -> 0 < x).
  { intros x Hx. cbn [In] in Hx.
    destruct Hx as [<- | [<- | [<- | []]]]; reflexivity. }
  assert (HB : forall x, In x [50; 50; 50] -> 0 < x).
  { intros x Hx. cbn [In] in Hx.
    destruct Hx as [<- | [<- | [<- | []]]]; reflexivity. }
  destruct (Alg01.alg_01 [100; 90; 100] [50; 50; 50] 1000 1000 [5; 50]
              [10; 20] 0) as [r | e] eqn:E.
  - exists r. split; [reflexivity |].
    apply (proj2 (alg_01_valuations_stay_nonnegative
                    [100; 90; 100] [50; 50; 50] 1000 1000 [5; 50] [10; 20] 0
                    ltac:(vm_compute; discriminate)
                    ltac:(vm_compute; discriminate)
                    ltac:(vm_compute; discriminate) HS HB) r E).
    reflexivity.
  - exfalso. vm_compute in E. discriminate.
Defined.

(** ** The last entry of a ladder *)

Lemma while_decrease_01_skipn cd :
  forall decr_perc sell_perc stock_val bond_val d' s' sv' bv',
    Alg01.while_decrease cd decr_perc sell_perc stock_val bond_val
    = Ok (d', s', sv', bv') ->
    exists j, d' = skipn j decr_perc /\ s' = skipn j sell_perc /\
              (j < length decr_perc)%nat.
Proof.
  induction decr_perc as [| d ds IH]; intros sp sv bv d' s' sv' bv' H;
    [discriminate |].
  cbn [Alg01.while_decrease] in H. destruct (Qltb d cd).
  - destruct sp as [| p sp]; [discriminate |].
    apply IH in H. destruct H as [j [-> [-> Hj]]].
    exists (S j). cbn [skipn length]. repeat split. lia.
  - inversion H; subst. exists 0%nat. cbn [skipn length]. repeat split. lia.
Qed.

Lemma while_decrease_02_skipn cd decrease_buys :
  forall decrease_percentages m_stock_val margin d' m' mg',
    Alg02.while_decrease cd decrease_percentages decrease_buys
      m_stock_val margin = Ok (d', m', mg') ->
    exists j, d' = skipn j decrease_percentages /\
              (j < length decrease_percentages)%nat.
Proof.
  induction decrease_percentages as [| d ds IH]; intros m mg d' m' mg' H;
    [discriminate |].
  cbn [Alg02.while_decrease] in H. destruct (Qltb d cd).
  - destruct decrease_buys as [| b bs]; [discriminate |].
    apply IH in H. destruct H as [j [-> Hj]].
    exists (S j). cbn [skipn length]. split; [reflexivity | lia].
  - inversion H; subst. exists 0%nat. cbn [skipn length].
    split; [reflexivity | lia].
Qed.

Lemma body_01_ladder stock_series bond_series monthly_addn D S' i st st' :
  (exists k, Alg01.decr_perc st = skipn k D /\
             Alg01.sell_perc st = skipn k S' /\
             (D <> [] -> (k < length D)%nat)) ->
  Alg01.body stock_series bond_series monthly_addn i st = Ok st' ->
  exists k, Alg01.decr_perc st' = skipn k D /\
            Alg01.sell_perc st' = skipn k S' /\
            (D <> [] -> (k < length D)%nat).
Proof.
  intros [k [Hd [Hs Hk]]] H. unfold Alg01.body in H.
  apply bind_Ok_inv in H. destruct H as [[sv bv] [_ H]].
  apply bind_Ok_inv in H. destruct H as [si [_ H]].
  destruct (Qltb si (Alg01.min st)).
  - apply bind_Ok_inv in H. destruct H as [[[[d s] sv'] bv'] [Hw H]].
    apply while_decrease_01_skipn in Hw. destruct Hw as [j [-> [-> Hj]]].
    inversion H; subst; cbn [Alg01.decr_perc Alg01.sell_perc].
    exists (j + k)%nat. rewrite Hd, Hs, !skipn_skipn.
    repeat split. intros _. rewrite Hd, length_skipn in Hj. lia.
  - inversion H; subst; cbn [Alg01.decr_perc Alg01.sell_perc].
    exists k. auto.
Qed.

Lemma body_02_ladder series decrease_buys D i st st' :
  (exists k, Alg02.decrease_percentages st = skipn k D /\
             (D <> [] -> (k < length D)%nat)) ->
  Alg02.body series decrease_buys i st = Ok st' ->
  exists k, Alg02.decrease_percentages st' = skipn k D /\
            (D <> [] -> (k < length D)%nat).
Proof.
  intros [k [Hd Hk]] H. unfold Alg02.body in H.
  apply bind_Ok_inv in H. destruct H as [si [_ H]].
  destruct (Qltb si (Alg02.min st)).
  - apply bind_Ok_inv in H. destruct H as [[[d m] mg] [Hw H]].
    apply while_decrease_02_skipn in Hw. destruct Hw as [j [-> Hj]].
    inversion H; subst; cbn [Alg02.decrease_percentages].
    exists (j + k)%nat. rewrite Hd, !skipn_skipn.
    split; [reflexivity |]. intros _. rewrite Hd, length_skipn in Hj. lia.
  - inversion H; subst; cbn [Alg02.decrease_percentages].
    exists k. auto.
Qed.

Lemma init_02_Ok_inv series margin_rate margin decrease_percentages
  decrease_buys increase_percentages increase_sells st :
  Alg02.init series margin_rate margin decrease_percentages decrease_buys
    increase_percentages increase_sells = Ok st ->
  all_valid decrease_percentages = true /\ all_valid decrease_buys = true /\
  exists mx,
    oldest series = Ok mx /\
    st = Alg02.mkState margin 0 decrease_percentages mx mx 0 0.
Proof.
  unfold Alg02.init. intro H.
  destruct (all_valid decrease_percentages); [| discriminate].
  destruct (all_valid decrease_buys); [| discriminate].
  destruct (all_valid increase_percentages); [| discriminate].
  destruct (all_valid increase_sells); [| discriminate].
  cbn [py_assert bind] in H.
  destruct (oldest series) as [mx |]; [| discriminate].
  cbn [bind] in H. inversion H; subst.
  repeat split. exists mx. auto.
Qed.

(** X9.  In every state a call goes through, the ladder is what is left of
    the one the call started with after some leading entries have been
    dropped ([alg_01]: the same number of triggers and of fractions, taken
    after the division by 100), and a ladder that started with an entry
    still holds one: the last entry never fires in a state that is reached,
    because the firing that would pop it raises.  In particular a call that
    returns has left the last trigger, and in [alg_01] the last fraction,
    unused. *)
Theorem last_ladder_entry_never_fires :
  (forall stock_series bond_series stock_val bond_val decr_perc sell_perc
          monthly_addn st,
      In st (Alg01.states stock_series bond_series stock_val bond_val
               decr_perc sell_perc monthly_addn) \/
      Alg01.run stock_series bond_series stock_val bond_val decr_perc
        sell_perc monthly_addn = Ok st ->
      exists k,
        Alg01.decr_perc st = skipn k (map (fun x => round64 (x / 100)) decr_perc) /\
        Alg01.sell_perc st = skipn k (map (fun x => round64 (x / 100)) sell_perc) /\
        (decr_perc <> [] -> (k < length decr_perc)%nat)) /\
  (forall series margin_rate margin decrease_percentages decrease_buys
          increase_percentages increase_sells st,
      In st (Alg02.states series margin_rate margin decrease_percentages
               decrease_buys increase_percentages increase_sells) \/
      Alg02.run series margin_rate margin decrease_percentages
        decrease_buys increase_percentages increase_sells = Ok st ->
      exists k,
        Alg02.decrease_percentages st = skipn k decrease_percentages /\
        (decrease_percentages <> [] ->
         (k < length decrease_percentages)%nat)).
Proof.
  split.
  - intros S B sv bv dp sp addn st H.
    set (D := map (fun x => round64 (x / 100)) dp).
    set (S' := map (fun x => round64 (x / 100)) sp).
    set (P := fun st => exists k,
                  Alg01.decr_perc st = skipn k D /\
                  Alg01.sell_perc st = skipn k S' /\
                  (D <> [] -> (k < length D)%nat)).
    assert (Hstep : forall i st st',
               P st -> Alg01.body S B addn i st = Ok st' -> P st').
    { intros i s1 s2 H1 H2.
      exact (body_01_ladder S B addn D S' i s1 s2 H1 H2). }
    assert (Hinit : forall st0, Alg01.init S B sv bv dp sp = Ok st0 -> P st0).
    { intros st0 Hi.
      destruct (init_01_Ok_inv _ _ _ _ _ _ _ Hi)
        as [_ [_ [_ [_ [mx [_ ->]]]]]].
      exists 0%nat. cbn [Alg01.decr_perc Alg01.sell_perc skipn].
      repeat split. intro Hne. destruct D; [congruence | cbn [length]; lia]. }
    assert (HP : P st).
    { destruct H as [Hin | Hrun].
      - unfold Alg01.states in Hin.
        destruct (Alg01.init S B sv bv dp sp) as [st0 | e] eqn:Hi;
          [| destruct Hin].
        destruct Hin as [<- | Hin]; [apply Hinit; reflexivity |].
        pose proof (trace_invariant _ P Hstep (length S - 1) st0
                      (Hinit st0 eq_refl)) as HF.
        rewrite Forall_forall in HF. exact (HF st Hin).
      - unfold Alg01.run in Hrun. apply bind_Ok_inv in Hrun.
        destruct Hrun as [st0 [Hi Hrun]].
        exact (for_range_invariant _ P Hstep _ _ _ (Hinit st0 Hi) Hrun). }
    destruct HP as [k [Hd [Hs Hk]]]. exists k.
    split; [exact Hd | split; [exact Hs |]].
    intro Hne. unfold D in Hk. rewrite length_map in Hk. apply Hk.
    destruct dp; [congruence | discriminate].
  - intros S r mg dp db ip ins st H.
    set (P := fun st => exists k,
                  Alg02.decrease_percentages st = skipn k dp /\
                  (dp <> [] -> (k < length dp)%nat)).
    assert (Hstep : forall i st st',
               P st -> Alg02.body S db i st = Ok st' -> P st').
    { intros i s1 s2 H1 H2. exact (body_02_ladder S db dp i s1 s2 H1 H2). }
    assert (Hinit : forall st0,
               Alg02.init S r mg dp db ip ins = Ok st0 -> P st0).
    { intros st0 Hi.
      destruct (init_02_Ok_inv _ _ _ _ _ _ _ _ Hi) as [_ [_ [mx [_ ->]]]].
      exists 0%nat. cbn [Alg02.decrease_percentages skipn].
      split; [reflexivity |].
      intro Hne. destruct dp; [congruence | cbn [length]; lia]. }
    destruct H as [Hin | Hrun].
    + unfold Alg02.states in Hin.
      destruct (Alg02.init S r mg dp db ip ins) as [st0 | e] eqn:Hi;
        [| destruct Hin].
      destruct Hin as [<- | Hin]; [apply Hinit; reflexivity |].
      pose proof (trace_invariant _ P Hstep (length S - 1) st0
                    (Hinit st0 eq_refl)) as HF.
      rewrite Forall_forall in HF. exact (HF st Hin).
    + unfold Alg02.run in Hrun. apply bind_Ok_inv in Hrun.
      destruct Hrun as [st0 [Hi Hrun]].
      exact (for_range_invariant _ P Hstep _ _ _ (Hinit st0 Hi) Hrun).
Qed.

(** Scenario A with a spare entry, and the run of C7: both return with the
    last entry in place. *)
Lemma last_ladder_entry_never_fires_witness :
  (exists st k,
      Alg01.run [100; 90; 100] [50; 50; 50] 1000 1000 [5; 50] [10; 20] 0
      = Ok st /\
      Alg01.decr_perc st = skipn k (map (fun x => round64 (x / 100)) [5; 50]) /\
      (k < 2)%nat) /\
  (exists st k,
      Alg02.run [40; 100] 3 1000 [1 # 10; 1 # 5; 9 # 10] [10; 50; 20] [] []
      = Ok st /\
      Alg02.decrease_percentages st = skipn k [1 # 10; 1 # 5; 9 # 10] /\
      (k < 3)%nat).
Proof.
  split.
  - destruct (Alg01.run [100; 90; 100] [50; 50; 50] 1000 1000 [5; 50]
                [10; 20] 0) as [st | e] eqn:E.
    + destruct (proj1 last_ladder_entry_never_fires
                  [100; 90; 100] [50; 50; 50] 1000 1000 [5; 50] [10; 20] 0
                  st (or_intror E)) as [k [Hd [_ Hk]]].
      exists st, k. split; [reflexivity | split; [exact Hd |]].
      apply Hk. discriminate.
    + exfalso. vm_compute in E. discriminate.
  - destruct (Alg02.run [40; 100] 3 1000 [1 # 10; 1 # 5; 9 # 10]
                [10; 50; 20] [] []) as [st | e] eqn:E.
    + destruct (proj2 last_ladder_entry_never_fires
                  [40; 100] 3 1000 [1 # 10; 1 # 5; 9 # 10] [10; 50; 20]
                  [] [] st (or_intror E)) as [k [Hd Hk]].
      exists st, k. split; [reflexivity | split; [exact Hd |]].
      apply Hk. discriminate.
    + exfalso. vm_compute in E. discriminate.
Defined.


(** ** A trigger that no drawdown of the series exceeds *)

Lemma for_range_returns {St : Type} (body : nat -> St -> result St)
  (R : St -> Prop) (bound : nat) :
  (forall i st, (i < bound)%nat -> R st ->
                exists st', body i st = Ok st' /\ R st') ->
  forall n st, (n <= bound)%nat -> R st ->
               exists st', for_range body n st = Ok st' /\ R st'.
Proof.
  intro Hb. induction n as [| i IH]; intros st Hn Hst.
  - exists st. split; [reflexivity | exact Hst].
  - cbn [for_range].
    destruct (Hb i st ltac:(lia) Hst) as [st1 [H1 HR1]].
    rewrite H1. cbn [bind]. apply IH; [lia | exact HR1].
Qed.

Lemma while_decrease_01_stops cd t :
  forall decr_perc sell_perc stock_val bond_val,
    In t decr_perc -> cd <= t -> length decr_perc = length sell_perc ->
    exists d' s' sv' bv',
      Alg01.while_decrease cd decr_perc sell_perc stock_val bond_val
      = Ok (d', s', sv', bv') /\
      In t d' /\ length d' = length s'.
Proof.
  induction decr_perc as [| d ds IH]; intros sp sv bv Hin Hle Hlen;
    [destruct Hin |].
  cbn [Alg01.while_decrease]. destruct (Qltb d cd) eqn:E.
  - destruct sp as [| p sp]; [discriminate |].
    apply IH; [| exact Hle | cbn [length] in Hlen; lia].
    destruct Hin as [-> | Hin]; [| exact Hin].
    exfalso. apply Qltb_lt in E. apply (Qlt_not_le _ _ E Hle).
  - exists (d :: ds), sp, sv, bv. auto.
Qed.

Lemma drawdown_01_le (lo hi price mx : Q) :
  0 < lo -> lo <= price -> price <= mx -> mx <= hi ->
  Alg01.drawdown price mx <= Alg01.drawdown lo hi.
Proof.
  intros Hlo Hp Hmx Hhi. unfold Alg01.drawdown.
  assert (H0mx : 0 < mx) by lra.
  assert (H0hi : 0 < hi) by lra.
  assert (Hq : 0 <= lo / hi) by (apply Qle_shift_div_l; lra).
  assert (H : lo / hi <= price / mx).
  { apply Qle_shift_div_l; [exact H0mx |].
    apply Qle_trans with (hi * (lo / hi)).
    - rewrite (Qmult_comm (lo / hi) mx).
      apply Qmult_le_compat_r; assumption.
    - setoid_replace (hi * (lo / hi)) with lo
        by (field; intro Hz; rewrite Hz in H0hi; apply (Qlt_irrefl 0 H0hi)).
      exact Hp. }
  apply round64_mono. apply round64_mono in H. lra.
Qed.

Lemma new_max_le (mx price hi : Q) :
  mx <= hi -> price <= hi -> new_max mx price <= hi.
Proof.
  intros H1 H2. unfold new_max. destruct (Qltb mx price); assumption.
Qed.

Lemma body_01_returns stock_series bond_series monthly_addn lo hi t i st :
  length stock_series = length bond_series ->
  (i + 1 < length stock_series)%nat ->
  0 < lo ->
  (forall x, In x stock_series -> lo <= x /\ x <= hi) ->
  (In t (Alg01.decr_perc st) /\ Alg01.drawdown lo hi <= t /\
   length (Alg01.decr_perc st) = length (Alg01.sell_perc st) /\
   Alg01.max st <= hi) ->
  exists st',
    Alg01.body stock_series bond_series monthly_addn i st = Ok st' /\
    (In t (Alg01.decr_perc st') /\ Alg01.drawdown lo hi <= t /\
     length (Alg01.decr_perc st') = length (Alg01.sell_perc st') /\
     Alg01.max st' <= hi).
Proof.
  intros Hlen Hi Hlo Hrange [Hin [Ht [Hl Hmx]]].
  unfold Alg01.body, Alg01.revalue.
  rewrite (iloc_lt stock_series i) by lia.
  rewrite (iloc_lt stock_series (i + 1)) by lia.
  rewrite (iloc_lt bond_series i) by lia.
  rewrite (iloc_lt bond_series (i + 1)) by lia.
  cbn [bind].
  destruct (Hrange (nth i stock_series 0) ltac:(apply nth_In; lia))
    as [Hlo' Hhi'].
  pose proof (new_max_le _ _ _ Hmx Hhi') as Hnm.
  destruct (Qltb (nth i stock_series 0) (Alg01.min st)).
  - match goal with
    | |- context [Alg01.while_decrease ?c ?d ?s ?v ?b] =>
        destruct (while_decrease_01_stops c t d s v b Hin) as
          [d' [s' [sv' [bv' [Hw [Hin' Hl']]]]]]
    end.
    + eapply Qle_trans; [| exact Ht].
      apply drawdown_01_le;
        [exact Hlo | exact Hlo' | apply new_max_ge_price | exact Hnm].
    + exact Hl.
    + rewrite Hw. cbn [bind]. eexists. split; [reflexivity |].
      cbn [Alg01.decr_perc Alg01.sell_perc Alg01.max]. auto.
  - eexists. split; [reflexivity |].
    cbn [Alg01.decr_perc Alg01.sell_perc Alg01.max]. auto.
Qed.

(** X11.  A call of [alg_01] returns whenever one of its triggers is at
    least the largest drawdown the series can show: with valid parameters, a
    non-empty series whose prices lie between [lo > 0] and [hi], and a
    trigger [t] of [decr_perc] whose converted value, the binary64 quotient
    [t/100], is not below the drawdown the code computes for a fall from
    [hi] to [lo], the loop ends without an exception, and the call returns a
    change unless the initial portfolio value is zero.  (That trigger, and
    the entries behind it, never fire.)  Both sides of the premise are the
    values the code compares: a trigger of 5 does not meet it for a fall
    from 100 to 95, whose drawdown the code computes above 5/100. *)
Theorem alg_01_returns_with_a_trigger_never_exceeded :
  forall stock_series bond_series stock_val bond_val decr_perc sell_perc
         monthly_addn lo hi t,
    all_valid decr_perc = true -> all_valid sell_perc = true ->
    length decr_perc = length sell_perc ->
    length stock_series = length bond_series ->
    stock_series <> [] ->
    0 < lo ->
    (forall x, In x stock_series -> lo <= x /\ x <= hi) ->
    In t decr_perc -> Alg01.drawdown lo hi <= round64 (t / 100) ->
    (exists st,
        Alg01.run stock_series bond_series stock_val bond_val decr_perc
          sell_perc monthly_addn = Ok st) /\
    (~ stock_val + bond_val == 0 ->
     exists r,
       Alg01.alg_01 stock_series bond_series stock_val bond_val decr_perc
         sell_perc monthly_addn = Ok r).
Proof.
  intros S B sv bv dp sp addn lo hi t Hd Hs Hl Hz Hne Hlo Hrange Hin Ht.
  assert (Hrun : exists st, Alg01.run S B sv bv dp sp addn = Ok st).
  { unfold Alg01.run.
    rewrite (init_01_valid _ _ _ _ _ _ Hd Hs Hl Hz).
    rewrite (oldest_nonempty _ Hne). cbn [bind].
    destruct (for_range_returns (Alg01.body S B addn)
                (fun st => In (round64 (t / 100)) (Alg01.decr_perc st) /\
                           Alg01.drawdown lo hi <= round64 (t / 100) /\
                           length (Alg01.decr_perc st)
                           = length (Alg01.sell_perc st) /\
                           Alg01.max st <= hi)
                (length S - 1))
      with (n := (length S - 1)%nat)
           (st := Alg01.mkState sv bv (map (fun x => round64 (x / 100)) dp)
                    (map (fun x => round64 (x / 100)) sp)
                    (nth (length S - 1) S 0) (nth (length S - 1) S 0) 0)
      as [st [Hst _]].
    - intros i st Hi HR.
      apply (body_01_returns S B addn lo hi (round64 (t / 100)) i st Hz);
        [lia | exact Hlo | exact Hrange | exact HR].
    - lia.
    - cbn [Alg01.decr_perc Alg01.sell_perc Alg01.max].
      split; [apply (in_map (fun x => round64 (x / 100))); exact Hin |].
      split; [exact Ht |].
      split; [rewrite !length_map; exact Hl |].
      apply Hrange. apply nth_In.
      destruct S; [congruence | cbn [length]; lia].
    - exists st. exact Hst. }
  split; [exact Hrun |].
  intro Hnz. destruct Hrun as [st Hst]. unfold Alg01.alg_01.
  rewrite Hst. cbn [bind]. rewrite port_change_outcome.
  assert (E : Qeq_bool (sv + bv) 0 = false).
  { destruct (Qeq_bool (sv + bv) 0) eqn:E; [| reflexivity].
    apply Qeq_bool_iff in E. contradiction. }
  rewrite E, andb_false_r. eexists. reflexivity.
Qed.

(** Scenario A with a trigger of 50%: the prices lie between 90 and 100, so
    no drawdown exceeds 10%. *)
Lemma alg_01_returns_with_a_trigger_never_exceeded_witness :
  exists r,
    Alg01.alg_01 [100; 90; 100] [50; 50; 50] 1000 1000 [5; 50] [10; 20] 0
    = Ok r.
Proof.
  apply (proj2 (alg_01_returns_with_a_trigger_never_exceeded
                  [100; 90; 100] [50; 50; 50] 1000 1000 [5; 50] [10; 20] 0
                  90 100 50
                  eq_refl eq_refl eq_refl eq_refl
                  ltac:(discriminate) ltac:(reflexivity)
                  ltac:(intros x Hx; cbn [In] in Hx;
                        destruct Hx as [<- | [<- | [<- | []]]];
                        split; vm_compute; discriminate)
                  ltac:(cbn [In]; auto)
                  ltac:(vm_compute; discriminate))).
  vm_compute. discriminate.
Defined.

(** ** Percentages that [alg_02] does not divide by 100 *)

Lemma body_02_holds series decrease_buys margin d ds i st :
  (i < length series)%nat ->
  (forall x, In x series -> 0 < x /\ binary64 x) ->
  1 <= d ->
  (0 < Alg02.min st /\ Alg02.min st <= Alg02.max st /\
   binary64 (Alg02.max st) /\
   Alg02.margin st = margin /\ Alg02.m_stock_val st = 0 /\
   Alg02.decrease_percentages st = d :: ds) ->
  exists st',
    Alg02.body series decrease_buys i st = Ok st' /\
    (0 < Alg02.min st' /\ Alg02.min st' <= Alg02.max st' /\
     binary64 (Alg02.max st') /\
     Alg02.margin st' = margin /\ Alg02.m_stock_val st' = 0 /\
     Alg02.decrease_percentages st' = d :: ds).
Proof.
  intros Hi Hpos Hd [Hmn [Hord [Hbin [Hmg [Hm Hdp]]]]].
  unfold Alg02.body. rewrite (iloc_lt series i) by lia. cbn [bind].
  destruct (Hpos (nth i series 0) ltac:(apply nth_In; lia)) as [Hp Hpb].
  pose proof (new_max_cases binary64 _ _ Hbin Hpb) as Hnb.
  destruct (Qltb (nth i series 0) (Alg02.min st)).
  - rewrite Hdp, while_decrease_02_holds.
    + cbn [bind]. eexists. split; [reflexivity |].
      cbn [Alg02.min Alg02.max Alg02.margin Alg02.m_stock_val
           Alg02.decrease_percentages].
      split; [exact Hp |]. split; [apply new_max_ge_price | auto].
    + destruct (drawdown_02_range (nth i series 0)
                  (new_max (Alg02.max st) (nth i series 0)) Hp
                  (new_max_ge_price _ _) Hnb) as [_ Hle].
      eapply Qle_trans; [exact Hle | exact Hd].
  - eexists. split; [reflexivity |].
    cbn [Alg02.min Alg02.max Alg02.margin Alg02.m_stock_val
         Alg02.decrease_percentages].
    split; [exact Hmn |].
    split; [eapply Qle_trans; [exact Hord | apply new_max_ge_max] | auto].
Qed.

(** X12.  [alg_02] compares the drawdown, which is at most 1, with the
    decrease percentages as they are given, without dividing them by 100.
    On positive prices (binary64 values, as the prices of a pandas series of
    floats are) a first trigger of 1 or more is therefore never exceeded:
    with four valid lists the call returns [None], and the loop ends with
    the margin it started with, an empty margin-stock position and the whole
    ladder, whatever the prices do. *)
Theorem alg_02_trigger_of_one_or_more_never_fires :
  forall series margin_rate margin d ds decrease_buys increase_percentages
         increase_sells,
    all_valid (d :: ds) = true -> all_valid decrease_buys = true ->
    all_valid increase_percentages = true ->
    all_valid increase_sells = true ->
    series <> [] ->
    (forall x, In x series -> 0 < x /\ binary64 x) ->
    1 <= d ->
    (exists st,
        Alg02.run series margin_rate margin (d :: ds) decrease_buys
          increase_percentages increase_sells = Ok st /\
        Alg02.margin st = margin /\ Alg02.m_stock_val st = 0 /\
        Alg02.decrease_percentages st = d :: ds) /\
    Alg02.alg_02 series margin_rate margin (d :: ds) decrease_buys
      increase_percentages increase_sells = Ok tt.
Proof.
  intros S r mg d ds db ip ins H1 H2 H3 H4 Hne Hpos Hd.
  assert (Hrun : exists st,
             Alg02.run S r mg (d :: ds) db ip ins = Ok st /\
             Alg02.margin st = mg /\ Alg02.m_stock_val st = 0 /\
             Alg02.decrease_percentages st = d :: ds).
  { unfold Alg02.run.
    rewrite (init_02_valid _ _ _ _ _ _ _ H1 H2 H3 H4).
    rewrite (oldest_nonempty _ Hne). cbn [bind].
    destruct (for_range_returns (Alg02.body S db)
                (fun st => 0 < Alg02.min st /\
                           Alg02.min st <= Alg02.max st /\
                           binary64 (Alg02.max st) /\
                           Alg02.margin st = mg /\
                           Alg02.m_stock_val st = 0 /\
                           Alg02.decrease_percentages st = d :: ds)
                (length S - 1))
      with (n := (length S - 1)%nat)
           (st := Alg02.mkState mg 0 (d :: ds) (nth (length S - 1) S 0)
                    (nth (length S - 1) S 0) 0 0)
      as [st [Hst [_ [_ [_ [Hmg [Hm Hdp]]]]]]].
    - intros i st Hi HR.
      apply (body_02_holds S db mg d ds i st);
        [lia | exact Hpos | exact Hd | exact HR].
    - lia.
    - cbn [Alg02.min Alg02.max Alg02.margin Alg02.m_stock_val
           Alg02.decrease_percentages].
      destruct (Hpos (nth (length S - 1) S 0)) as [Hp Hb].
      { apply nth_In. destruct S; [congruence | cbn [length]; lia]. }
      split; [exact Hp |]. split; [apply Qle_refl | auto].
    - exists st. auto. }
  split; [exact Hrun |].
  destruct Hrun as [st [Hst _]]. unfold Alg02.alg_02. rewrite Hst.
  reflexivity.
Qed.

(** Triggers of 5 and 10, meant as 5% and 10%: a fall from 100 to 40 buys
    nothing. *)
Lemma alg_02_trigger_of_one_or_more_never_fires_witness :
  exists st,
    Alg02.run [40; 100] 3 1000 [5; 10] [10; 50] [] [] = Ok st /\
    Alg02.margin st = 1000 /\ Alg02.m_stock_val st = 0 /\
    Alg02.decrease_percentages st = [5; 10].
Proof.
  apply (proj1 (alg_02_trigger_of_one_or_more_never_fires
                  [40; 100] 3 1000 5 [10] [10; 50] [] []
                  eq_refl eq_refl eq_refl eq_refl
                  ltac:(discriminate)
                  ltac:(intros x Hx; cbn [In] in Hx;
                        destruct Hx as [<- | [<- | []]];
                        (split; [reflexivity | vm_compute; reflexivity]))
                  ltac:(vm_compute; discriminate))).
Defined.

(** ** A ladder that is not reached, and what a ladder sells *)

Lemma body_01_no_fire stock_series bond_series monthly_addn lo hi t ds i st :
  length stock_series = length bond_series ->
  (i + 1 < length stock_series)%nat ->
  0 < lo ->
  (forall x, In x stock_series -> lo <= x /\ x <= hi) ->
  Alg01.drawdown lo hi <= t ->
  Alg01.decr_perc st = t :: ds -> Alg01.max st <= hi ->
  exists st',
    Alg01.body stock_series bond_series monthly_addn i st = Ok st' /\
    Alg01.decr_perc st' = t :: ds /\ Alg01.max st' <= hi /\
    Alg01.revalue stock_series bond_series monthly_addn i
      (Alg01.stock_val st) (Alg01.bond_val st)
    = Ok (Alg01.stock_val st', Alg01.bond_val st').
Proof.
  intros Hlen Hi Hlo Hrange Ht Hd Hmx.
  unfold Alg01.body.
  destruct (Alg01.revalue stock_series bond_series monthly_addn i
              (Alg01.stock_val st) (Alg01.bond_val st))
    as [[sv bv] | e] eqn:Hv.
  - cbn [bind]. rewrite (iloc_lt stock_series i) by lia. cbn [bind].
    destruct (Hrange (nth i stock_series 0) ltac:(apply nth_In; lia))
      as [Hlo' Hhi'].
    pose proof (new_max_le _ _ _ Hmx Hhi') as Hnm.
    destruct (Qltb (nth i stock_series 0) (Alg01.min st)).
    + rewrite Hd, while_decrease_01_holds.
      * cbn [bind]. eexists. split; [reflexivity |].
        cbn [Alg01.decr_perc Alg01.max Alg01.stock_val Alg01.bond_val]. auto.
      * eapply Qle_trans; [| exact Ht].
        apply drawdown_01_le;
          [exact Hlo | exact Hlo' | apply new_max_ge_price | exact Hnm].
    + eexists. split; [reflexivity |].
      cbn [Alg01.decr_perc Alg01.max Alg01.stock_val Alg01.bond_val]. auto.
  - exfalso. revert Hv. unfold Alg01.revalue.
    rewrite (iloc_lt stock_series i) by lia.
    rewrite (iloc_lt stock_series (i + 1)) by lia.
    rewrite (iloc_lt bond_series i) by lia.
    rewrite (iloc_lt bond_series (i + 1)) by lia.
    cbn [bind]. discriminate.
Qed.

Lemma for_range_01_no_fire stock_series bond_series monthly_addn lo hi t ds :
  length stock_series = length bond_series ->
  0 < lo ->
  (forall x, In x stock_series -> lo <= x /\ x <= hi) ->
  Alg01.drawdown lo hi <= t ->
  forall n st,
    (n < length stock_series)%nat ->
    Alg01.decr_perc st = t :: ds -> Alg01.max st <= hi ->
    exists st',
      for_range (Alg01.body stock_series bond_series monthly_addn) n st
      = Ok st' /\
      Alg01.stock_val st' = stock_hold stock_series n (Alg01.stock_val st) /\
      Alg01.bond_val st'
      = bond_hold bond_series monthly_addn n (Alg01.bond_val st).
Proof.
  intros Hlen Hlo Hrange Ht.
  induction n as [| i IH]; intros st Hn Hd Hmx.
  - exists st. cbn [for_range stock_hold bond_hold]. auto.
  - destruct (body_01_no_fire stock_series bond_series monthly_addn lo hi t
                ds i st Hlen ltac:(lia) Hlo Hrange Ht Hd Hmx)
      as [st1 [Hb [Hd1 [Hmx1 Hv]]]].
    destruct (IH st1 ltac:(lia) Hd1 Hmx1) as [st' [Hrun [Hs Hbv]]].
    exists st'. cbn [for_range]. rewrite Hb. cbn [bind].
    split; [exact Hrun |].
    cbn [stock_hold bond_hold]. rewrite Hs, Hbv.
    rewrite (revalue_stock _ _ _ _ _ _ _ _ Hv).
    destruct (revalue_bond _ _ _ _ _ _ _ _ Hv) as [bi [bi1 [Hbi [Hbi1 ->]]]].
    rewrite (iloc_nth _ _ _ Hbi), (iloc_nth _ _ _ Hbi1). auto.
Qed.

(** X13.  A ladder whose first trigger is never exceeded changes nothing:
    with valid parameters, at least two prices, an initial portfolio value
    that is not zero, stock prices between [lo > 0] and [hi], positive bond
    prices and a first trigger [d0] whose converted value, the binary64
    quotient [d0/100], is not below the drawdown the code computes for a
    fall from [hi] to [lo], [alg_01] returns, and returns the change of the
    portfolio that is never rebalanced, whatever the rest of the ladder and
    the fractions are.  Both sides of the premise are the values the code
    compares. *)
Theorem alg_01_first_trigger_not_reached_is_buy_and_hold :
  forall stock_series bond_series stock_val bond_val d0 decr_perc sell_perc
         monthly_addn lo hi,
    let s := length stock_series in
    all_valid (d0 :: decr_perc) = true -> all_valid sell_perc = true ->
    length (d0 :: decr_perc) = length sell_perc ->
    s = length bond_series ->
    (2 <= s)%nat ->
    0 < lo ->
    (forall x, In x stock_series -> lo <= x /\ x <= hi) ->
    (forall x, In x bond_series -> 0 < x) ->
    ~ stock_val + bond_val == 0 ->
    Alg01.drawdown lo hi <= round64 (d0 / 100) ->
    exists r,
      Alg01.alg_01 stock_series bond_series stock_val bond_val
        (d0 :: decr_perc) sell_perc monthly_addn = Ok r /\
      r == (stock_val
              * (nth 0 stock_series 0 / nth (s - 1) stock_series 0)
            + (bond_val
                 * (nth 0 bond_series 0 / nth (s - 1) bond_series 0)
               + additions bond_series monthly_addn (s - 1)))
           / (stock_val + bond_val) - 1.
Proof.
  intros S B sv bv d0 dp sp addn lo hi s Hd Hs Hl Hz H2 Hlo Hrange HB Hnz Ht.
  assert (Hne : S <> []) by (intros ->; cbn in s; lia).
  assert (HS : forall x, In x S -> 0 < x).
  { intros x Hx. destruct (Hrange x Hx) as [H _]. lra. }
  unfold Alg01.alg_01, Alg01.run.
  rewrite (init_01_valid _ _ _ _ _ _ Hd Hs Hl Hz).
  rewrite (oldest_nonempty _ Hne). cbn [bind]. fold s.
  destruct (for_range_01_no_fire S B addn lo hi (round64 (d0 / 100))
              (map (fun x => round64 (x / 100)) dp) Hz Hlo Hrange Ht (s - 1)%nat
              (Alg01.mkState sv bv (map (fun x => round64 (x / 100)) (d0 :: dp))
                 (map (fun x => round64 (x / 100)) sp)
                 (nth (s - 1) S 0) (nth (s - 1) S 0) 0))
    as [st [Hrun [Hsv Hbv]]].
  - unfold s. lia.
  - reflexivity.
  - cbn [Alg01.max]. apply Hrange. apply nth_In. unfold s. lia.
  - rewrite Hrun. cbn [bind]. rewrite port_change_outcome.
    replace (s - 1 =? 0)%nat with false
      by (symmetry; apply Nat.eqb_neq; lia).
    cbn [andb]. eexists. split; [reflexivity |].
    rewrite Hsv, Hbv. cbn [Alg01.stock_val Alg01.bond_val].
    rewrite stock_hold_closed by (exact HS || (unfold s; lia)).
    rewrite bond_hold_closed by (exact HB || (unfold s in *; lia)).
    reflexivity.
Qed.

(** Stock prices 100, 95, 110 from the oldest to the newest and a first
    trigger of 20%: the fall to 95 and the ladder are without effect, and the
    change is the one of 1000 of stock grown to 1100 beside 1000 of bonds. *)
Lemma alg_01_first_trigger_not_reached_is_buy_and_hold_witness :
  exists r,
    Alg01.alg_01 [110; 95; 100] [50; 50; 50] 1000 1000 [20; 30] [10; 20] 0
    = Ok r /\ r == 1 # 20.
Proof.
  destruct (alg_01_first_trigger_not_reached_is_buy_and_hold
              [110; 95; 100] [50; 50; 50] 1000 1000 20 [30] [10; 20] 0
              95 110
              eq_refl eq_refl eq_refl eq_refl
              ltac:(cbn [length]; lia) ltac:(reflexivity)
              ltac:(intros x Hx; cbn [In] in Hx;
                    destruct Hx as [<- | [<- | [<- | []]]];
                    split; vm_compute; discriminate)
              ltac:(intros x Hx; cbn [In] in Hx;
                    destruct Hx as [<- | [<- | [<- | []]]]; reflexivity)
              ltac:(vm_compute; discriminate)
              ltac:(vm_compute; discriminate))
    as [r [Hr Hval]].
  exists r. split; [exact Hr |].
  rewrite Hval. vm_compute. reflexivity.
Defined.

(** X14.  When the ladder of [alg_01] returns after [k] firings, the bonds
    left are the bonds before the firings multiplied by [(1 - p)] for each of
    the first [k] fractions [p], and the stock has grown by exactly what the
    bonds have lost. *)
Theorem ladder_01_bonds_left :
  forall cd decr_perc sell_perc stock_val bond_val d' s' sv' bv',
    Alg01.while_decrease cd decr_perc sell_perc stock_val bond_val
    = Ok (d', s', sv', bv') ->
    let k := (length decr_perc - length d')%nat in
    bv' == bond_val * kept (firstn k sell_perc) /\
    sv' == stock_val + (bond_val - bv').
Proof.
  intros cd. induction decr_perc as [| d ds IH];
    intros sp sv bv d' s' sv' bv' H; [discriminate |].
  cbn [Alg01.while_decrease] in H. destruct (Qltb d cd).
  - destruct sp as [| p sp]; [discriminate |].
    pose proof (while_decrease_01_suffix _ _ _ _ _ _ _ _ _ H)
      as [fired [Hds _]].
    assert (Hlen : (length d' <= length ds)%nat)
      by (rewrite Hds, length_app; lia).
    apply IH in H. cbv zeta in H. destruct H as [Hb Hs].
    cbv zeta. cbn [length].
    replace (S (length ds) - length d')%nat
      with (S (length ds - length d')) by lia.
    cbn [firstn kept]. split.
    + rewrite Hb. ring.
    + rewrite Hs. ring.
  - inversion H; subst. cbv zeta.
    replace (length (d :: ds) - length (d :: ds))%nat with 0%nat by lia.
    cbn [firstn kept]. split; ring.
Qed.

(** Two firings with the fractions 10% and 20% leave 72% of the bonds. *)
Lemma ladder_01_bonds_left_witness :
  exists d' s' sv' bv',
    Alg01.while_decrease (3 # 10) [1 # 10; 1 # 5; 1 # 2]
      [1 # 10; 1 # 5; 1 # 2] 1000 1000 = Ok (d', s', sv', bv') /\
    bv' == 720 /\ sv' == 1280.
Proof.
  destruct (Alg01.while_decrease (3 # 10) [1 # 10; 1 # 5; 1 # 2]
              [1 # 10; 1 # 5; 1 # 2] 1000 1000)
    as [[[[d' s'] sv'] bv'] | e] eqn:E.
  - exists d', s', sv', bv'. split; [reflexivity |].
    pose proof (ladder_01_bonds_left _ _ _ _ _ _ _ _ _ E) as H.
    cbv zeta in H. destruct H as [Hb Hs].
    assert (Hd : d' = [1 # 2]) by (vm_compute in E; congruence).
    subst d'. cbn [length Nat.sub firstn kept] in Hb.
    split.
    + rewrite Hb. reflexivity.
    + rewrite Hs, Hb. reflexivity.
  - exfalso. vm_compute in E. discriminate.
Defined.
